(** * search-listings: the product search pipeline of [app.py]

    A shallow embedding of [preprocess_query], [get_fuzzy_scores] and
    [search_products], and the properties of the ranking they compute.

    Modelling conventions.
    - A Python [str] is a [string] whose characters are the code points
      0..255 (the catalog is read with [encoding='latin1']; Latin-1 is
      closed under [str.lower]).
    - A float is an exact rational [Q]; rounding is outside the model.
    - [top_k] is a natural number: FAISS takes no negative neighbour
      count.
    - A Python exception ([IndexError], [AssertionError]) is [None] in
      the [option] monad.
    - The sentence encoder, the FAISS index, [fuzz.token_set_ratio] and
      [np.argsort] are libraries: they are parameters of the pipeline. *)

From Stdlib Require Import List String Ascii Bool Arith ZArith QArith Lia Lqa.
From Stdlib Require Import Permutation Sorted Qround DecimalString.
Import ListNotations.

Local Open Scope string_scope.
Local Open Scope nat_scope.
Local Open Scope list_scope.

(** ** Python strings *)

Module PyStr.

(** Code points that [str.split()] treats as white space:
    TAB..CR, FS..US, SPACE, NEL and NBSP. *)
Definition is_space (c : ascii) : bool :=
  let n := nat_of_ascii c in
  ((9 <=? n) && (n <=? 13)) || ((28 <=? n) && (n <=? 32))
  || (n =? 133) || (n =? 160).

(** [str.lower] on one code point: A..Z and the Latin-1 capitals
    (all of 0xC0..0xDE but the multiplication sign 0xD7) move up by 32. *)
Definition lower_char (c : ascii) : ascii :=
  let n := nat_of_ascii c in
  if ((65 <=? n) && (n <=? 90))
     || ((192 <=? n) && (n <=? 222) && negb (n =? 215))
  then ascii_of_nat (n + 32) else c.

Fixpoint lower (s : string) : string :=
  match s with
  | EmptyString => EmptyString
  | String c s' => String (lower_char c) (lower s')
  end.

(** The word under construction is emitted unless it is empty. *)
Definition flush (cur : string) : list string :=
  match cur with
  | EmptyString => []
  | _ => [cur]
  end.

(** [s.split()]: maximal runs of non-space characters, in order;
    [cur] is the run read so far. *)
Fixpoint split_from (cur : string) (s : string) : list string :=
  match s with
  | EmptyString => flush cur
  | String c s' =>
      if is_space c then flush cur ++ split_from EmptyString s'
      else split_from (cur ++ String c EmptyString)%string s'
  end.

Definition split (s : string) : list string := split_from EmptyString s.

(** [sep.join(words)] *)
Definition join (sep : string) (words : list string) : string :=
  String.concat sep words.

(** [s.startswith(p)] *)
Definition startswith (s p : string) : bool := String.prefix p s.

(** [sub in s] *)
Fixpoint contains (s sub : string) : bool :=
  String.prefix sub s ||
  match s with
  | EmptyString => false
  | String _ s' => contains s' sub
  end.

(** A word: what [split] produces, at least one character and no
    white space. *)
Fixpoint space_free (s : string) : bool :=
  match s with
  | EmptyString => true
  | String c s' => negb (is_space c) && space_free s'
  end.

Definition is_word (w : string) : Prop := w <> "" /\ space_free w = true.


End PyStr.

(** ** Query normalisation *)

Definition stop_words : list string :=
  ["the"; "a"; "an"; "of"; "and"; "in"; "for"; "on"; "with"; "to"].

(** [word in stop_words] *)
Definition is_stop_word (word : string) : bool :=
  existsb (String.eqb word) stop_words.

Definition preprocess_query (query : string) : string :=
  let words := PyStr.split (PyStr.lower query) in
  let query_clean :=
    PyStr.join " " (filter (fun word => negb (is_stop_word word)) words) in
  query_clean.

(** ** Exceptions as [option] *)

Definition bind {A B : Type} (m : option A) (k : A -> option B) : option B :=
  match m with
  | Some a => k a
  | None => None
  end.

Notation "x <- m ;; k" := (bind m (fun x => k))
  (at level 61, m at next level, right associativity).
Notation "' pat <- m ;; k" := (bind m (fun x => match x with pat => k end))
  (at level 61, pat pattern, m at next level, right associativity).

(** A list comprehension whose body may raise. *)
Fixpoint mapM {A B : Type} (f : A -> option B) (l : list A) : option (list B) :=
  match l with
  | [] => Some []
  | x :: l' => y <- f x ;; ys <- mapM f l' ;; Some (y :: ys)
  end.

(** [l[i]] on a Python list: negative indices count from the end, and an
    index outside [-len(l), len(l)) raises [IndexError]. *)
Definition getitem {A : Type} (l : list A) (i : Z) : option A :=
  let n := Z.of_nat (List.length l) in
  if (0 <=? i)%Z then nth_error l (Z.to_nat i)
  else if (- n <=? i)%Z then nth_error l (Z.to_nat (n + i))
  else None.

(** The indices at which [l[i]] raises nothing. *)
Definition valid_index {A : Type} (l : list A) (i : Z) : Prop :=
  (- Z.of_nat (List.length l) <= i < Z.of_nat (List.length l))%Z.

(** ** The NumPy operations of [search_products], on one-dimensional arrays *)

Module Np.

(** [c * a] for a scalar [c] *)
Definition scale (c : Q) (a : list Q) : list Q := map (Qmult c) a.

(** [a + b]; every sum in [search_products] adds arrays of one shape. *)
Fixpoint add (a b : list Q) : list Q :=
  match a, b with
  | x :: a', y :: b' => (x + y)%Q :: add a' b'
  | _, _ => []
  end.

(** [-a] *)
Definition neg (a : list Q) : list Q := map Qopp a.

(** [x > c] on floats *)
Definition gt_bool (x c : Q) : bool := negb (Qle_bool x c).

(** [a > c] *)
Definition gt (a : list Q) (c : Q) : list bool := map (fun x => gt_bool x c) a.

Fixpoint where_from (i : nat) (mask : list bool) : list nat :=
  match mask with
  | [] => []
  | b :: mask' =>
      if b then i :: where_from (S i) mask' else where_from (S i) mask'
  end.

(** [np.where(mask)[0]]: the positions that hold [True], ascending. *)
Definition where_true (mask : list bool) : list nat := where_from 0 mask.

(** [a[idx]] for an index array [idx]; a position outside [a] raises. *)
Definition take {A : Type} (a : list A) (idx : list nat) : option (list A) :=
  mapM (nth_error a) idx.

End Np.

(** ** Formatting a percentage *)

(** The nearest integer, halves going to the even one. *)
Definition round_half_even (x : Q) : Z :=
  let f := Qfloor x in
  match Qcompare (x - inject_Z f) (1 # 2) with
  | Lt => f
  | Gt => (f + 1)%Z
  | Eq => if Z.even f then f else (f + 1)%Z
  end.

(** A non-negative count of hundredths in decimal: 1234 reads "12.34". *)
Definition hundredths_text (n : Z) : string :=
  let digit (d : Z) := NilZero.string_of_uint (N.to_uint (Z.to_N d)) in
  (digit (n / 100)%Z ++ "." ++ digit (n / 10 mod 10)%Z ++ digit (n mod 10)%Z)%string.

(** [f"{x:.2f}"] *)
Definition format_2f (x : Q) : string :=
  let n := round_half_even (x * 100) in
  ((if Qle_bool 0 x then "" else "-") ++ hundredths_text (Z.abs n))%string.

(** ** The pipeline *)

(** The values of the local arrays of [search_products] once every
    candidate is scored (line 84). *)
Record scores : Type := mk_scores {
  ai_scores : list Q;
  fuzzy_scores : list Q;
  substring_boost : list Q;
  startswith_boost : list Q;
  final_scores : list Q
}.

Section Search.

(** The catalog, [products]. *)
Variable products : list string.

(** [model.encode([text])]: the sentence encoder. *)
Variable embedding : Type.
Variable encode : string -> embedding.

(** The answer of [faiss_index.search(query_embedding, k)] for a positive
    [k], row 0 of both results: the [k] hits as pairs (distance, catalog
    position). *)
Variable index_search : embedding -> nat -> list (Q * Z).

(** [fuzz.token_set_ratio], an integer score. *)
Variable token_set_ratio : string -> string -> Z.

(** [np.argsort] with its default [kind]. *)
Variable argsort : list Q -> list nat.

Definition get_fuzzy_scores (query_clean : string) (indices : list Z)
  : option (list Q * list Q) :=
  fuzzy_scores <-
    mapM (fun i => p <- getitem products i ;;
            Some (inject_Z (token_set_ratio query_clean (PyStr.lower p)) / 100)%Q)
         indices ;;
  substring_boost <-
    mapM (fun i => p <- getitem products i ;;
            Some (if PyStr.contains (PyStr.lower p) query_clean then 1 else 0)%Q)
         indices ;;
  Some (fuzzy_scores, substring_boost).

(** Line 76, the prefix boost. *)
Definition get_startswith_boost (query_clean : string) (indices : list Z)
  : option (list Q) :=
  mapM (fun i => p <- getitem products i ;;
          Some (if PyStr.startswith (PyStr.lower p) query_clean then 1 else 0)%Q)
       indices.

(** Lines 79-84, the weighted sum. *)
Definition fuse (ai fuzzy startswith substring : list Q) : list Q :=
  Np.add (Np.add (Np.add (Np.scale 0.4 ai) (Np.scale 0.4 fuzzy))
                 (Np.scale 0.1 startswith))
         (Np.scale 0.1 substring).

(** Lines 72-84: every candidate is scored. *)
Definition score_candidates (query_clean : string) (hits : list (Q * Z))
  : option scores :=
  let distances := map fst hits in
  let indices := map snd hits in
  let ai_scores := map (fun d => 1 - d)%Q distances in
  '(fuzzy_scores, substring_boost) <- get_fuzzy_scores query_clean indices ;;
  startswith_boost <- get_startswith_boost query_clean indices ;;
  let final_scores := fuse ai_scores fuzzy_scores startswith_boost substring_boost in
  Some (mk_scores ai_scores fuzzy_scores substring_boost startswith_boost
                  final_scores).

(** Lines 87-89: the positions of the candidates that are returned. *)
Definition select (final_scores : list Q) (top_k : nat) : option (list nat) :=
  let filtered_indices := Np.where_true (Np.gt final_scores 0.1) in
  kept <- Np.take final_scores filtered_indices ;;
  sorted <- Np.take filtered_indices (argsort (Np.neg kept)) ;;
  let top_k_indices := firstn top_k sorted in
  Some top_k_indices.

(** Line 91: the (name, score) pair of the candidate at position [i]. *)
Definition result_at (indices : list Z) (final_scores : list Q) (i : nat)
  : option (string * Q) :=
  label <- nth_error indices i ;;
  name <- getitem products label ;;
  score <- nth_error final_scores i ;;
  Some (name, score).

(** [faiss_index.search(query_embedding, k)]: FAISS asserts [k > 0]
    before it searches, so the call raises for [k = 0]. *)
Definition faiss_search (query_embedding : embedding) (k : nat)
  : option (list (Q * Z)) :=
  if k =? 0 then None else Some (index_search query_embedding k).

Definition search_products (query : string) (top_k : nat)
  : option (list (string * Q)) :=
  let query_clean := preprocess_query query in
  let query_embedding := encode query_clean in
  hits <- faiss_search query_embedding (top_k * 3) ;;
  s <- score_candidates query_clean hits ;;
  top_k_indices <- select (final_scores s) top_k ;;
  mapM (result_at (map snd hits) (final_scores s)) top_k_indices.

(** The hits the index returns for a query: line 71. *)
Definition hits_of (query : string) (top_k : nat) : list (Q * Z) :=
  index_search (encode (preprocess_query query)) (top_k * 3).

(** What lines 58, 61 and 76 compute for one catalog name. *)
Definition fuzzy_of (query_clean name : string) : Q :=
  (inject_Z (token_set_ratio query_clean (PyStr.lower name)) / 100)%Q.
Definition substring_of (query_clean name : string) : Q :=
  (if PyStr.contains (PyStr.lower name) query_clean then 1 else 0)%Q.
Definition startswith_of (query_clean name : string) : Q :=
  (if PyStr.startswith (PyStr.lower name) query_clean then 1 else 0)%Q.

(** Lines 97-110, what the page shows under the input box.  A match
    line carries the two fields of its format string: the name, and the
    percentage as printed, [f"{score * 100:.2f}"]. *)
Inductive widget : Type :=
| Info (text : string)
| Warning (text : string)
| Subheader (text : string)
| Match (name : string) (percent : string).

Definition page (query : string) : option (list widget) :=
  match query with
  | EmptyString => Some [Info "Enter a product name to start searching!"]
  | _ =>
      results <- search_products query 10 ;;
      if List.length results =? 0
      then Some [Warning "No relevant matches found."]
      else Some (Subheader "Top Matches:"
                 :: map (fun '(name, score) =>
                           Match name (format_2f (score * 100))) results)
  end.

End Search.

(** ** The contract of [np.argsort], and two sorters that meet it *)

(** [np.argsort(a)] returns the positions of [a], each once, listed so
    that the values ascend.  The default [kind] promises nothing on the
    order of equal values. *)
Definition argsort_spec (argsort : list Q -> list nat) : Prop :=
  forall a : list Q,
    Permutation (argsort a) (seq 0 (List.length a)) /\
    StronglySorted (fun i j => (nth i a 0 <= nth j a 0)%Q) (argsort a).

(** What [kind='stable'] adds: equal values are listed by ascending
    position. *)
Definition argsort_stable (argsort : list Q -> list nat) : Prop :=
  forall a : list Q,
    StronglySorted (fun i j => (nth i a 0 == nth j a 0)%Q -> i < j) (argsort a).

Section InsertionArgsort.

(** [before x y]: a position of value [x] goes in front of a later
    position of value [y]. *)
Variable before : Q -> Q -> bool.
Variable a : list Q.

Fixpoint insert (i : nat) (l : list nat) : list nat :=
  match l with
  | [] => [i]
  | j :: l' =>
      if before (nth i a 0%Q) (nth j a 0%Q) then i :: j :: l'
      else j :: insert i l'
  end.

Definition insertion_argsort : list nat :=
  fold_right insert [] (seq 0 (List.length a)).

End InsertionArgsort.

(** Equal values keep their order, as [kind='stable'] does. *)
Definition stable_argsort (a : list Q) : list nat :=
  insertion_argsort Qle_bool a.

(** NumPy's vectorised argsort sorts a short array with a network of
    compare-exchanges on the lanes of one register; up to four 64-bit
    keys go through the bitonic network (0,1) (2,3), (0,3) (1,2),
    (0,1) (2,3).  An exchange of lanes [i < j] swaps the two positions
    only when the key of the first is strictly greater; a lane beyond
    the array holds the largest key and never moves. *)
Fixpoint set_lane (i : nat) (x : nat) (idx : list nat) : list nat :=
  match idx, i with
  | [], _ => []
  | _ :: idx', 0 => x :: idx'
  | y :: idx', S i' => y :: set_lane i' x idx'
  end.

Definition exchange (a : list Q) (idx : list nat) (lanes : nat * nat) : list nat :=
  let (i, j) := lanes in
  match nth_error idx i, nth_error idx j with
  | Some x, Some y =>
      if Np.gt_bool (nth x a 0%Q) (nth y a 0%Q)
      then set_lane j x (set_lane i y idx)
      else idx
  | _, _ => idx
  end.

Definition bitonic4 : list (nat * nat) :=
  [(0, 1); (2, 3); (0, 3); (1, 2); (0, 1); (2, 3)].

(** The network on up to four keys; longer arrays, which no statement
    below sorts with it, are sorted by insertion. *)
Definition network_argsort (a : list Q) : list nat :=
  if List.length a <=? 4
  then fold_left (exchange a) bitonic4 (seq 0 (List.length a))
  else stable_argsort a.

(** A scorer that rates equal strings 100 and all others 0. *)
Definition exact_ratio (s1 s2 : string) : Z :=
  if String.eqb s1 s2 then 100%Z else 0%Z.


(** ** A worked catalog *)

Module Demo.

Definition products : list string := ["tea"; "TEA"; "coffee"].

(** A stand-in encoder: the text is its own embedding. *)
Definition encode (text : string) : string := text.

(** FAISS pads a request beyond the catalog with label -1 at the
    largest float32. *)
Definition far : Q := 340282346638528859811704183484516925440.

Definition near_hits : list (Q * Z) :=
  [(0%Q, 0%Z); (0%Q, 1%Z); (0.5%Q, 2%Z); (far, (-1)%Z); (far, (-1)%Z); (far, (-1)%Z)].

Definition remote_hits : list (Q * Z) :=
  [(1%Q, 0%Z); (1.2%Q, 1%Z); (2%Q, 2%Z); (far, (-1)%Z); (far, (-1)%Z); (far, (-1)%Z)].

(** The query "xyz" is far from the whole catalog, any other is near. *)
Definition index_search (e : string) (k : nat) : list (Q * Z) :=
  firstn k (if String.eqb e "xyz" then remote_hits else near_hits).

Definition score (query : string) (top_k : nat) : option scores :=
  score_candidates products exact_ratio (preprocess_query query)
                   (hits_of string encode index_search query top_k).

Definition search (argsort : list Q -> list nat) (query : string) (top_k : nat)
  : option (list (string * Q)) :=
  search_products products string encode index_search exact_ratio argsort
                  query top_k.

End Demo.

(** ** A catalog with two equally good matches *)

(** A scorer that rates two strings 100 when the words of one are all
    among the words of the other, as [fuzz.token_set_ratio] does, and 0
    otherwise. *)
Definition word_ratio (s1 s2 : string) : Z :=
  let included (u v : list string) :=
    forallb (fun w => existsb (String.eqb w) v) u in
  if included (PyStr.split s1) (PyStr.split s2)
     || included (PyStr.split s2) (PyStr.split s1)
  then 100%Z else 0%Z.

Module Ties.

Definition products : list string := ["green tea"; "GREEN TEA"; "tea"; "tea x"].

Definition encode (text : string) : string := text.

(** For the query "tea" the first two products are at the same
    distance; for any other query the four distances differ.  A request
    beyond the catalog is padded as FAISS does. *)
Definition tied_hits : list (Q * Z) :=
  [(0%Q, 0%Z); (0%Q, 1%Z); (0.125%Q, 2%Z); (0.1875%Q, 3%Z)].

Definition spread_hits : list (Q * Z) :=
  [(0%Q, 0%Z); (0.0625%Q, 1%Z); (0.25%Q, 2%Z); (0.5%Q, 3%Z)].

Definition index_search (e : string) (k : nat) : list (Q * Z) :=
  firstn k ((if String.eqb e "tea" then tied_hits else spread_hits)
            ++ repeat (Demo.far, (-1)%Z) (k - 4)).

Definition score (query : string) (top_k : nat) : option scores :=
  score_candidates products word_ratio (preprocess_query query)
                   (hits_of string encode index_search query top_k).

Definition search (argsort : list Q -> list nat) (query : string) (top_k : nat)
  : option (list (string * Q)) :=
  search_products products string encode index_search word_ratio argsort
                  query top_k.

End Ties.

(** * Properties *)

(** ** Strings *)

Module PyStrFacts.
Import PyStr.

Ltac each_char c := destruct c as [[] [] [] [] [] [] [] []].

Lemma lower_char_idem (c : ascii) : lower_char (lower_char c) = lower_char c.
Proof. each_char c; reflexivity. Qed.

Lemma append_empty_r (s : string) : (s ++ "")%string = s.
Proof. induction s as [|c s IH]; simpl; [reflexivity | now rewrite IH]. Qed.

Lemma append_assoc (s1 s2 s3 : string) :
  ((s1 ++ s2) ++ s3 = s1 ++ (s2 ++ s3))%string.
Proof. induction s1 as [|c s1 IH]; simpl; [reflexivity | now rewrite IH]. Qed.

Lemma lower_idem (s : string) : lower (lower s) = lower s.
Proof.
  induction s as [|c s IH]; simpl; [reflexivity|].
  now rewrite lower_char_idem, IH.
Qed.

Lemma lower_append (s1 s2 : string) :
  lower (s1 ++ s2) = (lower s1 ++ lower s2)%string.
Proof. induction s1 as [|c s1 IH]; simpl; [reflexivity | now rewrite IH]. Qed.

Lemma lower_join (sep : string) (ws : list string) :
  lower (join sep ws) = join (lower sep) (map lower ws).
Proof.
  unfold join. induction ws as [|w ws IH]; [reflexivity|].
  destruct ws as [|w' ws]; [reflexivity|].
  change (lower (w ++ sep ++ String.concat sep (w' :: ws))%string
          = (lower w ++ lower sep ++ String.concat (lower sep) (map lower (w' :: ws)))%string).
  now rewrite !lower_append, IH.
Qed.

Lemma space_free_append (s1 s2 : string) :
  space_free (s1 ++ s2) = space_free s1 && space_free s2.
Proof.
  induction s1 as [|c s1 IH]; simpl; [reflexivity|].
  now rewrite IH, andb_assoc.
Qed.

Lemma flush_word (w : string) : w <> "" -> flush w = [w].
Proof. destruct w; [congruence | reflexivity]. Qed.

(** Reading a word only extends the run under construction. *)
Lemma split_from_word (w cur s : string) :
  space_free w = true -> split_from cur (w ++ s) = split_from (cur ++ w) s.
Proof.
  revert cur. induction w as [|c w IH]; intros cur Hw; simpl in *.
  - now rewrite append_empty_r.
  - apply andb_true_iff in Hw as [Hc Hw].
    apply negb_true_iff in Hc. rewrite Hc.
    rewrite IH by assumption. now rewrite append_assoc.
Qed.

Lemma split_from_words (cur s : string) :
  space_free cur = true -> Forall is_word (split_from cur s).
Proof.
  revert cur. induction s as [|c s IH]; intros cur Hcur; simpl.
  - destruct cur; simpl; constructor; [split; [discriminate | assumption] | constructor].
  - destruct (is_space c) eqn:Hc.
    + apply Forall_app. split; [|now apply IH].
      destruct cur; simpl; constructor; [split; [discriminate | assumption] | constructor].
    + apply IH. rewrite space_free_append, Hcur. simpl. now rewrite Hc.
Qed.

Lemma split_words (s : string) : Forall is_word (split s).
Proof. now apply split_from_words. Qed.




(** Words joined by single spaces split back into the same words. *)
Lemma split_join (ws : list string) :
  Forall is_word ws -> split (join " " ws) = ws.
Proof.
  unfold split, join.
  induction ws as [|w ws IH]; intros Hws; [reflexivity|].
  inversion Hws as [|? ? [Hne Hsf] Hws']; subst.
  destruct ws as [|w' ws].
  - simpl. rewrite <- (append_empty_r w) at 1.
    rewrite split_from_word by assumption. simpl. now apply flush_word.
  - change (split_from "" (w ++ String " " (String.concat " " (w' :: ws))) = w :: w' :: ws).
    rewrite split_from_word by assumption. simpl.
    rewrite flush_word by assumption. simpl. f_equal. now apply IH.
Qed.

Lemma split_from_lower (cur s : string) :
  lower cur = cur -> Forall (fun w => lower w = w) (split_from cur (lower s)).
Proof.
  revert cur. induction s as [|c s IH]; intros cur Hcur; simpl.
  - destruct cur; simpl; constructor; [assumption | constructor].
  - destruct (is_space (lower_char c)).
    + apply Forall_app. split; [|now apply IH].
      destruct cur; simpl; constructor; [assumption | constructor].
    + apply IH. rewrite lower_append, Hcur. simpl. now rewrite lower_char_idem.
Qed.

Lemma map_fixed {A : Type} (f : A -> A) (l : list A) :
  Forall (fun x => f x = x) l -> map f l = l.
Proof. induction 1 as [|x l Hx _ IH]; simpl; [reflexivity | now rewrite Hx, IH]. Qed.

Lemma filter_all {A : Type} (p : A -> bool) (l : list A) :
  Forall (fun x => p x = true) l -> filter p l = l.
Proof. induction 1 as [|x l Hx _ IH]; simpl; [reflexivity | now rewrite Hx, IH]. Qed.

Lemma filter_none {A : Type} (p : A -> bool) (l : list A) :
  Forall (fun x => p x = false) l -> filter p l = [].
Proof. induction 1 as [|x l Hx _ IH]; simpl; [reflexivity | now rewrite Hx]. Qed.

Lemma Forall_filter_sub {A : Type} (P : A -> Prop) (p : A -> bool) (l : list A) :
  Forall P l -> Forall P (filter p l).
Proof.
  induction 1 as [|x l Hx _ IH]; simpl; [constructor|].
  destruct (p x); [now constructor | assumption].
Qed.

Lemma Forall_filter_true {A : Type} (p : A -> bool) (l : list A) :
  Forall (fun x => p x = true) (filter p l).
Proof.
  induction l as [|x l IH]; simpl; [constructor|].
  destruct (p x) eqn:Hx; [now constructor | assumption].
Qed.

Lemma prefix_refl (s : string) : String.prefix s s = true.
Proof.
  induction s as [|c s IH]; [reflexivity|].
  simpl. destruct (ascii_dec c c); [assumption | congruence].
Qed.

Lemma prefix_empty (s : string) : String.prefix "" s = true.
Proof. now destruct s. Qed.

(** The empty string starts every string and occurs in every string. *)
Lemma startswith_empty (s : string) : startswith s "" = true.
Proof. apply prefix_empty. Qed.

Lemma contains_empty (s : string) : contains s "" = true.
Proof. destruct s; simpl; reflexivity. Qed.

Lemma startswith_refl (s : string) : startswith s s = true.
Proof. apply prefix_refl. Qed.

Lemma contains_refl (s : string) : contains s s = true.
Proof. destruct s as [|c s]; cbn [contains]; now rewrite prefix_refl. Qed.

End PyStrFacts.

(** ** Query normalisation *)

Section Normalisation.
Import PyStr PyStrFacts.

Lemma is_stop_word_iff (w : string) :
  is_stop_word w = true <-> In w stop_words.
Proof.
  unfold is_stop_word. rewrite existsb_exists. split.
  - intros (x & Hin & Heq). apply String.eqb_eq in Heq. now subst.
  - intros Hin. exists w. split; [assumption | apply String.eqb_refl].
Qed.

Lemma kept_words (query : string) :
  let kept := filter (fun word => negb (is_stop_word word))
                     (split (lower query)) in
  Forall is_word kept /\
  Forall (fun w => lower w = w) kept /\
  Forall (fun w => negb (is_stop_word w) = true) kept.
Proof.
  repeat split.
  - apply Forall_filter_sub, split_words.
  - apply Forall_filter_sub. now apply split_from_lower.
  - apply Forall_filter_true.
Qed.



(** C9. Normalising a normalised query changes nothing. *)
Theorem preprocess_query_idempotent (s : string) :
  preprocess_query (preprocess_query s) = preprocess_query s.
Proof.
  destruct (kept_words s) as (Hwords & Hlower & Hkept).
  unfold preprocess_query at 1.
  unfold preprocess_query.
  set (kept := filter (fun word => negb (is_stop_word word)) (split (lower s))) in *.
  rewrite lower_join, (map_fixed lower kept Hlower).
  change (lower " ") with " ".
  rewrite (split_join kept Hwords).
  now rewrite (filter_all _ kept Hkept).
Qed.

End Normalisation.

(** ** The option monad and list comprehensions *)

Lemma bind_Some {A B : Type} (m : option A) (k : A -> option B) (b : B) :
  bind m k = Some b -> exists a, m = Some a /\ k a = Some b.
Proof. destruct m as [a|]; simpl; [eauto | discriminate]. Qed.

Ltac inv_bind H :=
  let a := fresh "v" in
  let E := fresh "E" in
  apply bind_Some in H as (a & E & H).

Lemma mapM_Forall2 {A B : Type} (f : A -> option B) (l : list A) (r : list B) :
  mapM f l = Some r <-> Forall2 (fun x y => f x = Some y) l r.
Proof.
  revert r. induction l as [|x l IH]; intros r; simpl.
  - split; intros H; [injection H as <-; constructor | now inversion H].
  - split.
    + intros H. inv_bind H. inv_bind H. injection H as <-.
      constructor; [assumption | now apply IH].
    + intros H. inversion H as [|? y ? r' Hx Hr]; subst.
      rewrite Hx. simpl. apply IH in Hr. rewrite Hr. reflexivity.
Qed.

Lemma mapM_length {A B : Type} (f : A -> option B) (l : list A) (r : list B) :
  mapM f l = Some r -> List.length r = List.length l.
Proof. intros H. apply mapM_Forall2, Forall2_length in H. now symmetry. Qed.

Lemma Forall2_nth_l {A B : Type} (R : A -> B -> Prop) (l : list A) (r : list B)
    (i : nat) (x : A) :
  Forall2 R l r -> nth_error l i = Some x ->
  exists y, nth_error r i = Some y /\ R x y.
Proof.
  intros H. revert i. induction H as [|x0 y0 l r Hxy _ IH]; intros i Hi.
  - destruct i; discriminate.
  - destruct i as [|i]; simpl in *.
    + injection Hi as ->. eauto.
    + now apply IH.
Qed.

Lemma Forall2_In_r {A B : Type} (R : A -> B -> Prop) (l : list A) (r : list B)
    (y : B) :
  Forall2 R l r -> In y r -> exists x, In x l /\ R x y.
Proof.
  induction 1 as [|x0 y0 l r Hxy _ IH]; intros Hin; [contradiction|].
  destruct Hin as [->|Hin].
  - exists x0. split; [now left | assumption].
  - destruct (IH Hin) as (x & Hx & HR). exists x. split; [now right | assumption].
Qed.

Lemma mapM_nth {A B : Type} (f : A -> option B) (l : list A) (r : list B)
    (i : nat) (x : A) :
  mapM f l = Some r -> nth_error l i = Some x ->
  exists y, nth_error r i = Some y /\ f x = Some y.
Proof.
  intros H Hi. apply mapM_Forall2 in H.
  exact (Forall2_nth_l _ l r i x H Hi).
Qed.

Lemma mapM_total {A B : Type} (f : A -> option B) (l : list A) :
  Forall (fun x => exists y, f x = Some y) l -> exists r, mapM f l = Some r.
Proof.
  induction 1 as [|x l (y & Hy) _ (r & Hr)]; simpl.
  - now exists [].
  - exists (y :: r). now rewrite Hy, Hr.
Qed.

Lemma mapM_ext {A B : Type} (f g : A -> option B) (l : list A) :
  (forall x, In x l -> f x = g x) -> mapM f l = mapM g l.
Proof.
  induction l as [|x l IH]; intros H; simpl; [reflexivity|].
  rewrite (H x) by now left. rewrite IH; [reflexivity|].
  intros y Hy. apply H. now right.
Qed.

(** ** Python list indexing *)

Lemma getitem_Some {A : Type} (l : list A) (i : Z) :
  valid_index l i -> exists x, getitem l i = Some x.
Proof.
  unfold valid_index, getitem. intros Hi.
  destruct (0 <=? i)%Z eqn:E0.
  - apply Z.leb_le in E0.
    destruct (nth_error l (Z.to_nat i)) eqn:E; [eauto|].
    apply nth_error_None in E. lia.
  - apply Z.leb_gt in E0.
    destruct (- Z.of_nat (List.length l) <=? i)%Z eqn:E1.
    + destruct (nth_error l (Z.to_nat (Z.of_nat (List.length l) + i))) eqn:E; [eauto|].
      apply nth_error_None in E. lia.
    + apply Z.leb_gt in E1. lia.
Qed.

Lemma getitem_valid {A : Type} (l : list A) (i : Z) (x : A) :
  getitem l i = Some x -> valid_index l i.
Proof.
  unfold valid_index, getitem. intros H.
  destruct (0 <=? i)%Z eqn:E0.
  - apply Z.leb_le in E0.
    assert (Z.to_nat i < List.length l) by (apply nth_error_Some; congruence).
    lia.
  - apply Z.leb_gt in E0.
    destruct (- Z.of_nat (List.length l) <=? i)%Z eqn:E1; [|discriminate].
    apply Z.leb_le in E1. lia.
Qed.

Lemma getitem_In {A : Type} (l : list A) (i : Z) (x : A) :
  getitem l i = Some x -> In x l.
Proof.
  unfold getitem. intros H.
  destruct (0 <=? i)%Z; [now apply nth_error_In in H|].
  destruct (- Z.of_nat (List.length l) <=? i)%Z; [|discriminate].
  now apply nth_error_In in H.
Qed.

(** ** Array operations *)

Module NpFacts.
Import Np.

Lemma gt_bool_iff (x c : Q) : gt_bool x c = true <-> (c < x)%Q.
Proof.
  unfold gt_bool. rewrite negb_true_iff. split.
  - intros H. apply Qnot_le_lt. intros Hle.
    apply Qle_bool_iff in Hle. congruence.
  - intros H. destruct (Qle_bool x c) eqn:E; [|reflexivity].
    apply Qle_bool_iff in E. exfalso. now apply (Qlt_not_le c x).
Qed.

Lemma add_length (a b : list Q) :
  List.length a = List.length b -> List.length (add a b) = List.length a.
Proof.
  revert b. induction a as [|x a IH]; intros [|y b] H; simpl in *; try discriminate.
  - reflexivity.
  - f_equal. apply IH. now injection H.
Qed.

Lemma add_nth (a b : list Q) (i : nat) (x y : Q) :
  nth_error a i = Some x -> nth_error b i = Some y ->
  nth_error (add a b) i = Some (x + y)%Q.
Proof.
  revert b i. induction a as [|x0 a IH]; intros [|y0 b] [|i] Ha Hb;
    simpl in *; try discriminate.
  - now injection Ha as ->; injection Hb as ->.
  - now apply IH.
Qed.

Lemma scale_nth (c : Q) (a : list Q) (i : nat) (x : Q) :
  nth_error a i = Some x -> nth_error (scale c a) i = Some (c * x)%Q.
Proof. intros H. unfold scale. now apply map_nth_error. Qed.

Lemma where_from_In (k : nat) (mask : list bool) (i : nat) :
  In i (where_from k mask) <->
  k <= i /\ nth_error mask (i - k) = Some true.
Proof.
  revert k. induction mask as [|b mask IH]; intros k; simpl.
  - split; [contradiction|]. intros [_ H]. destruct (i - k); discriminate.
  - assert (Hstep : In i (where_from (S k) mask) <->
                    k < i /\ nth_error (b :: mask) (i - k) = Some true).
    { rewrite IH. split; intros [Hk H]; (split; [lia|]).
      - replace (i - k) with (S (i - S k)) by lia. exact H.
      - replace (i - k) with (S (i - S k)) in H by lia. exact H. }
    destruct b; simpl; rewrite ?Hstep; split.
    + intros [<-|[Hk H]]; [|split; [lia | exact H]].
      split; [lia|]. now rewrite Nat.sub_diag.
    + intros [Hk H]. destruct (Nat.eq_dec k i) as [->|Hne]; [now left|].
      right. split; [lia | exact H].
    + intros [Hk H]. split; [lia | exact H].
    + intros [Hk H]. split; [|exact H].
      destruct (Nat.eq_dec k i) as [->|Hne]; [|lia].
      rewrite Nat.sub_diag in H. discriminate.
Qed.

(** [np.where(a > c)[0]] holds exactly the positions of the values
    above [c]. *)
Lemma where_gt_In (a : list Q) (c : Q) (i : nat) :
  In i (where_true (gt a c)) <-> exists x, nth_error a i = Some x /\ (c < x)%Q.
Proof.
  unfold where_true, gt. rewrite where_from_In, Nat.sub_0_r, nth_error_map.
  split.
  - intros [_ H]. destruct (nth_error a i) as [x|]; [|discriminate].
    exists x. split; [reflexivity|]. apply gt_bool_iff. now injection H.
  - intros (x & -> & Hx). split; [lia|]. simpl. f_equal. now apply gt_bool_iff.
Qed.

Lemma where_from_ascending (k : nat) (mask : list bool) :
  StronglySorted lt (where_from k mask).
Proof.
  revert k. induction mask as [|b mask IH]; intros k; simpl; [constructor|].
  destruct b; [|apply IH]. constructor; [apply IH|].
  apply Forall_forall. intros i Hi. apply where_from_In in Hi. lia.
Qed.

Lemma take_In {A : Type} (a : list A) (idx : list nat) (r : list A) (x : A) :
  take a idx = Some r -> In x r -> In x a.
Proof.
  unfold take. intros H Hin. apply mapM_Forall2 in H.
  destruct (Forall2_In_r _ _ _ _ H Hin) as (i & _ & Hi).
  now apply nth_error_In in Hi.
Qed.

Lemma take_total {A : Type} (a : list A) (idx : list nat) :
  Forall (fun i => i < List.length a) idx -> exists r, take a idx = Some r.
Proof.
  intros H. apply mapM_total. apply Forall_impl with (2 := H).
  intros i Hi. destruct (nth_error a i) eqn:E; [eauto|].
  apply nth_error_None in E. lia.
Qed.

End NpFacts.

(** ** The two sorters meet the contract of [np.argsort] *)

Section InsertionArgsortFacts.

Variable before : Q -> Q -> bool.
Hypothesis before_le : forall x y, before x y = true -> (x <= y)%Q.
Hypothesis before_ge : forall x y, before x y = false -> (y <= x)%Q.
Variable a : list Q.

Let ascending (i j : nat) : Prop := (nth i a 0 <= nth j a 0)%Q.

Lemma insert_perm (i : nat) (l : list nat) :
  Permutation (insert before a i l) (i :: l).
Proof.
  induction l as [|j l IH]; simpl; [reflexivity|].
  destruct (before (nth i a 0%Q) (nth j a 0%Q)); [reflexivity|].
  rewrite IH. apply perm_swap.
Qed.

Lemma insert_sorted (i : nat) (l : list nat) :
  StronglySorted ascending l -> StronglySorted ascending (insert before a i l).
Proof.
  induction 1 as [|j l Hs IH Hj]; simpl.
  - repeat constructor.
  - destruct (before (nth i a 0%Q) (nth j a 0%Q)) eqn:E.
    + apply before_le in E.
      constructor; [now constructor|].
      constructor; [exact E|].
      apply Forall_impl with (2 := Hj). intros k Hk.
      unfold ascending in *. eapply Qle_trans; eassumption.
    + apply before_ge in E.
      constructor; [exact IH|].
      refine (Permutation_Forall _ (_ : Forall (ascending j) (i :: l)));
        [symmetry; apply insert_perm | now constructor].
Qed.

Lemma insertion_argsort_ok :
  Permutation (insertion_argsort before a) (seq 0 (List.length a)) /\
  StronglySorted ascending (insertion_argsort before a).
Proof.
  unfold insertion_argsort.
  induction (seq 0 (List.length a)) as [|i l [IHp IHs]]; simpl.
  - split; constructor.
  - split; [|now apply insert_sorted].
    rewrite insert_perm. now constructor.
Qed.

End InsertionArgsortFacts.

Lemma stable_argsort_spec : argsort_spec stable_argsort.
Proof.
  intros a. apply insertion_argsort_ok.
  - intros x y. apply Qle_bool_iff.
  - intros x y H. destruct (Qlt_le_dec x y) as [Hlt|Hle]; [|exact Hle].
    apply Qlt_le_weak, Qle_bool_iff in Hlt. congruence.
Qed.



Ltac order_facts :=
  repeat match goal with
         | H : Np.gt_bool _ _ = true |- _ => apply NpFacts.gt_bool_iff in H
         | H : Np.gt_bool ?x ?y = false |- _ =>
             assert (x <= y)%Q
               by (destruct (Qlt_le_dec y x) as [Hlt|Hle];
                   [apply NpFacts.gt_bool_iff in Hlt; congruence | exact Hle]);
             clear H
         end.

Ltac run_network :=
  repeat match goal with
         | |- context [Np.gt_bool ?x ?y] =>
             destruct (Np.gt_bool x y) eqn:?; cbn
         end.

Ltac lanes_permuted :=
  apply NoDup_Permutation_bis;
  [ repeat constructor; simpl; intuition discriminate
  | simpl; lia
  | intros z Hz; simpl in *; intuition ].

Lemma network_argsort_spec : argsort_spec network_argsort.
Proof.
  intros a. destruct a as [|x0 [|x1 [|x2 [|x3 [|x4 a]]]]];
    try apply stable_argsort_spec;
    unfold network_argsort, bitonic4; cbn; run_network; order_facts;
    (split; [lanes_permuted | repeat constructor; cbn; lra]).
Qed.

(** ** Scoring the candidates *)

Section ScoringFacts.
Import PyStr NpFacts.

Variable products : list string.
Variable token_set_ratio : string -> string -> Z.

Lemma get_fuzzy_scores_nth (q : string) (indices : list Z) (fz sb : list Q)
    (i : nat) (label : Z) :
  get_fuzzy_scores products token_set_ratio q indices = Some (fz, sb) ->
  nth_error indices i = Some label ->
  exists name, getitem products label = Some name /\
    nth_error fz i = Some (fuzzy_of token_set_ratio q name) /\
    nth_error sb i = Some (substring_of q name).
Proof.
  unfold get_fuzzy_scores. intros H Hi.
  inv_bind H. inv_bind H. injection H as <- <-.
  destruct (mapM_nth _ _ _ _ _ E Hi) as (x & Hx & Hfx).
  destruct (mapM_nth _ _ _ _ _ E0 Hi) as (y & Hy & Hfy).
  inv_bind Hfx. inv_bind Hfy. rewrite E1 in E2. injection E2 as <-.
  injection Hfx as <-. injection Hfy as <-.
  exists v1. repeat split; assumption.
Qed.

Lemma get_startswith_boost_nth (q : string) (indices : list Z) (sw : list Q)
    (i : nat) (label : Z) :
  get_startswith_boost products q indices = Some sw ->
  nth_error indices i = Some label ->
  exists name, getitem products label = Some name /\
    nth_error sw i = Some (startswith_of q name).
Proof.
  unfold get_startswith_boost. intros H Hi.
  destruct (mapM_nth _ _ _ _ _ H Hi) as (x & Hx & Hfx).
  inv_bind Hfx. injection Hfx as <-. exists v. split; assumption.
Qed.

Lemma fuse_nth (ai fz sw sb : list Q) (i : nat) (x1 x2 x3 x4 : Q) :
  nth_error ai i = Some x1 -> nth_error fz i = Some x2 ->
  nth_error sw i = Some x3 -> nth_error sb i = Some x4 ->
  nth_error (fuse ai fz sw sb) i
  = Some (0.4 * x1 + 0.4 * x2 + 0.1 * x3 + 0.1 * x4)%Q.
Proof.
  intros H1 H2 H3 H4. unfold fuse.
  repeat apply add_nth; now apply scale_nth.
Qed.

Lemma fuse_length (ai fz sw sb : list Q) (n : nat) :
  List.length ai = n -> List.length fz = n ->
  List.length sw = n -> List.length sb = n ->
  List.length (fuse ai fz sw sb) = n.
Proof.
  intros H1 H2 H3 H4. unfold fuse, Np.scale.
  assert (E1 : List.length (Np.add (map (Qmult 0.4) ai) (map (Qmult 0.4) fz)) = n)
    by (rewrite add_length; rewrite !length_map; congruence).
  assert (E2 : List.length (Np.add (Np.add (map (Qmult 0.4) ai) (map (Qmult 0.4) fz))
                                   (map (Qmult 0.1) sw)) = n)
    by (rewrite add_length; rewrite ?length_map; congruence).
  rewrite add_length; rewrite ?length_map; congruence.
Qed.

(** The five arrays of a scored candidate list, read at one hit. *)
Lemma score_candidates_nth (q : string) (hits : list (Q * Z)) (s : scores)
    (i : nat) (d : Q) (label : Z) :
  score_candidates products token_set_ratio q hits = Some s ->
  nth_error hits i = Some (d, label) ->
  exists name, getitem products label = Some name /\
    nth_error (ai_scores s) i = Some (1 - d)%Q /\
    nth_error (fuzzy_scores s) i = Some (fuzzy_of token_set_ratio q name) /\
    nth_error (startswith_boost s) i = Some (startswith_of q name) /\
    nth_error (substring_boost s) i = Some (substring_of q name) /\
    nth_error (final_scores s) i
    = Some (0.4 * (1 - d) + 0.4 * fuzzy_of token_set_ratio q name
            + 0.1 * startswith_of q name + 0.1 * substring_of q name)%Q.
Proof.
  unfold score_candidates. intros H Hi.
  inv_bind H. destruct v as [fz sb]. inv_bind H. injection H as <-. simpl.
  assert (Hlabel : nth_error (map snd hits) i = Some label)
    by (now rewrite nth_error_map, Hi).
  assert (Hd : nth_error (map (fun d => 1 - d)%Q (map fst hits)) i = Some (1 - d)%Q)
    by (now rewrite !nth_error_map, Hi).
  destruct (get_fuzzy_scores_nth _ _ _ _ _ _ E Hlabel) as (name & Hname & Hfz & Hsb).
  destruct (get_startswith_boost_nth _ _ _ _ _ E0 Hlabel) as (name' & Hname' & Hsw).
  rewrite Hname in Hname'. injection Hname' as <-.
  exists name. repeat split; try assumption.
  now apply fuse_nth.
Qed.

Lemma score_candidates_length (q : string) (hits : list (Q * Z)) (s : scores) :
  score_candidates products token_set_ratio q hits = Some s ->
  List.length (final_scores s) = List.length hits.
Proof.
  unfold score_candidates. intros H.
  inv_bind H. destruct v as [fz sb]. inv_bind H. injection H as <-. simpl.
  unfold get_fuzzy_scores in E. inv_bind E. inv_bind E. injection E as <- <-.
  apply mapM_length in E1, E2, E0. rewrite length_map in E1, E2, E0.
  apply fuse_length; rewrite ?length_map; congruence.
Qed.

(** With every label a valid position of the catalog, scoring raises
    nothing. *)
Lemma score_candidates_total (q : string) (hits : list (Q * Z)) :
  Forall (fun h => valid_index products (snd h)) hits ->
  exists s, score_candidates products token_set_ratio q hits = Some s.
Proof.
  intros Hvalid.
  assert (Hmap : forall (f : string -> Q),
    exists r, mapM (fun i => p <- getitem products i ;; Some (f p))
                   (map snd hits) = Some r).
  { intros f. apply mapM_total. apply Forall_map.
    apply Forall_impl with (2 := Hvalid). intros h Hh.
    destruct (getitem_Some _ _ Hh) as (p & Hp). rewrite Hp. simpl. eauto. }
  destruct (Hmap (fun p => fuzzy_of token_set_ratio q p)) as (fz & Hfz).
  destruct (Hmap (fun p => substring_of q p)) as (sb & Hsb).
  destruct (Hmap (fun p => startswith_of q p)) as (sw & Hsw).
  unfold score_candidates, get_fuzzy_scores, get_startswith_boost.
  unfold fuzzy_of, substring_of, startswith_of in *.
  rewrite Hfz, Hsb. simpl. rewrite Hsw. simpl. eauto.
Qed.

Lemma score_candidates_valid (q : string) (hits : list (Q * Z)) (s : scores) :
  score_candidates products token_set_ratio q hits = Some s ->
  Forall (fun h => valid_index products (snd h)) hits.
Proof.
  intros H. apply Forall_forall. intros [d label] Hin.
  apply In_nth_error in Hin as (i & Hi).
  destruct (score_candidates_nth _ _ _ _ _ _ H Hi) as (name & Hname & _).
  simpl. now apply getitem_valid in Hname.
Qed.

End ScoringFacts.

(** ** Selecting the results *)

Lemma StronglySorted_map {A B : Type} (R : B -> B -> Prop) (f : A -> B) (l : list A) :
  StronglySorted (fun x y => R (f x) (f y)) l -> StronglySorted R (map f l).
Proof.
  induction 1 as [|x l _ IH Hx]; simpl; constructor; [assumption|].
  apply Forall_map. exact Hx.
Qed.

Lemma StronglySorted_weaken {A : Type} (R R' : A -> A -> Prop) (l : list A) :
  (forall x y, In x l -> In y l -> R x y -> R' x y) ->
  StronglySorted R l -> StronglySorted R' l.
Proof.
  intros Himp H. induction H as [|x l _ IH Hx]; constructor.
  - apply IH. intros a b Ha Hb. apply Himp; now right.
  - rewrite Forall_forall in *. intros y Hy.
    apply Himp; [now left | now right | now apply Hx].
Qed.


Lemma StronglySorted_nth_error {A : Type} (R : A -> A -> Prop) (l : list A)
    (a b : nat) (x y : A) :
  StronglySorted R l -> a < b ->
  nth_error l a = Some x -> nth_error l b = Some y -> R x y.
Proof.
  intros H. revert a b. induction H as [|z l _ IH Hz]; intros a b Hab Ha Hb.
  - destruct a; discriminate.
  - destruct b as [|b]; [lia|]. simpl in Hb.
    destruct a as [|a]; simpl in Ha.
    + injection Ha as ->. rewrite Forall_forall in Hz.
      apply Hz. now apply nth_error_In in Hb.
    + apply (IH a b); [lia | assumption | assumption].
Qed.

Lemma In_firstn {A : Type} (n : nat) (l : list A) (x : A) :
  In x (firstn n l) -> In x l.
Proof.
  intros H. rewrite <- (firstn_skipn n l). apply in_or_app. now left.
Qed.

Lemma map_nth_seq {A : Type} (l : list A) (d : A) :
  map (fun p => nth p l d) (seq 0 (List.length l)) = l.
Proof.
  induction l as [|x l IH]; [reflexivity|].
  simpl. f_equal. rewrite <- seq_shift, map_map. exact IH.
Qed.

Section SelectFacts.
Import NpFacts.

Variable argsort : list Q -> list nat.

(** [a[idx]] read position by position. *)
Lemma take_nth {A : Type} (a : list A) (idx : list nat) (r : list A)
    (p : nat) (d : A) :
  Np.take a idx = Some r -> p < List.length idx ->
  nth p r d = nth (nth p idx 0) a d /\ nth p idx 0 < List.length a.
Proof.
  unfold Np.take. intros H Hp.
  destruct (nth_error idx p) as [i|] eqn:Ei;
    [|apply nth_error_None in Ei; lia].
  destruct (mapM_nth _ _ _ _ _ H Ei) as (x & Hx & Hi).
  rewrite (nth_error_nth _ _ _ Ei), (nth_error_nth _ _ _ Hx),
          (nth_error_nth _ _ _ Hi).
  split; [reflexivity|]. apply nth_error_Some. congruence.
Qed.

Lemma take_map_nth {A : Type} (a : list A) (idx : list nat) (r : list A) (d : A) :
  Np.take a idx = Some r -> r = map (fun i => nth i a d) idx.
Proof.
  unfold Np.take. revert r. induction idx as [|i idx IH]; intros r H; simpl in *.
  - now injection H as <-.
  - inv_bind H. inv_bind H. injection H as <-.
    rewrite (nth_error_nth _ _ _ E). f_equal. now apply IH.
Qed.

Lemma filtered_in_range (final_scores : list Q) :
  Forall (fun i => i < List.length final_scores)
         (Np.where_true (Np.gt final_scores 0.1)).
Proof.
  apply Forall_forall. intros i Hi.
  apply where_gt_In in Hi as (x & Hx & _).
  apply nth_error_Some. congruence.
Qed.

(** Whatever [argsort] returns, a selected position is one whose score
    is above the threshold, and at most [top_k] positions are selected. *)
Lemma select_above (final_scores : list Q) (top_k : nat) (idxs : list nat) :
  select argsort final_scores top_k = Some idxs ->
  List.length idxs <= top_k /\
  Forall (fun i => exists x, nth_error final_scores i = Some x /\ (0.1 < x)%Q) idxs.
Proof.
  unfold select. intros H. inv_bind H. inv_bind H. injection H as <-.
  split; [apply firstn_le_length|].
  apply Forall_forall. intros i Hi. apply In_firstn in Hi.
  apply (take_In _ _ _ _ E0) in Hi. now apply where_gt_In.
Qed.

Hypothesis argsort_ok : argsort_spec argsort.

(** With a sorter that meets its contract, selection raises nothing:
    the positions above the threshold are listed by descending score
    and cut after [top_k]. *)
Lemma select_spec (final_scores : list Q) (top_k : nat) :
  exists sorted,
    select argsort final_scores top_k = Some (firstn top_k sorted) /\
    Permutation sorted (Np.where_true (Np.gt final_scores 0.1)) /\
    StronglySorted (fun i j => (nth j final_scores 0 <= nth i final_scores 0)%Q)
                   sorted /\
    (argsort_stable argsort ->
     StronglySorted
       (fun i j => (nth i final_scores 0 == nth j final_scores 0)%Q -> i < j)
       sorted).
Proof.
  unfold select.
  set (filtered := Np.where_true (Np.gt final_scores 0.1)).
  destruct (take_total final_scores filtered (filtered_in_range final_scores))
    as (kept & Hkept).
  rewrite Hkept. simpl.
  assert (Hlen : List.length (Np.neg kept) = List.length filtered).
  { unfold Np.neg. rewrite length_map. now apply mapM_length in Hkept. }
  destruct (argsort_ok (Np.neg kept)) as [Hperm Hsorted].
  rewrite Hlen in Hperm.
  assert (Hrange : Forall (fun p => p < List.length filtered) (argsort (Np.neg kept))).
  { apply Forall_forall. intros p Hp.
    apply (Permutation_in _ Hperm), in_seq in Hp. lia. }
  destruct (take_total filtered _ Hrange) as (sorted & Hsorted').
  rewrite Hsorted'. simpl. exists sorted. split; [reflexivity|].
  pose proof (take_map_nth _ _ _ 0 Hsorted') as ->.
  rewrite Forall_forall in Hrange.
  assert (Hkey : forall p, In p (argsort (Np.neg kept)) ->
            nth p (Np.neg kept) 0%Q = Qopp (nth (nth p filtered 0) final_scores 0%Q)).
  { intros p Hp.
    destruct (take_nth _ _ _ p 0%Q Hkept (Hrange p Hp)) as [<- _].
    unfold Np.neg. change 0%Q with (Qopp 0) at 1. now rewrite map_nth. }
  split; [|split].
  - eapply Permutation_trans; [apply Permutation_map, Hperm|].
    now rewrite map_nth_seq.
  - apply StronglySorted_map.
    apply StronglySorted_weaken with (2 := Hsorted).
    intros p p' Hp Hp' Hle.
    rewrite (Hkey p Hp), (Hkey p' Hp') in Hle.
    now apply Qopp_le_compat in Hle; rewrite !Qopp_involutive in Hle.
  - intros Hstable. apply StronglySorted_map.
    apply StronglySorted_weaken with (2 := Hstable (Np.neg kept)).
    intros p p' Hp Hp' Hlt Heq.
    rewrite (Hkey p Hp), (Hkey p' Hp') in Hlt.
    assert (Hpp : p < p') by (apply Hlt; now rewrite Heq).
    pose proof (Hrange p' Hp') as Hp'range.
    destruct (nth_error filtered p) as [i|] eqn:Ei;
      [|apply nth_error_None in Ei; lia].
    destruct (nth_error filtered p') as [j|] eqn:Ej;
      [|apply nth_error_None in Ej; lia].
    rewrite (nth_error_nth _ _ _ Ei), (nth_error_nth _ _ _ Ej).
    exact (StronglySorted_nth_error lt filtered p p' i j
             (where_from_ascending 0 _) Hpp Ei Ej).
Qed.

End SelectFacts.

(** ** The whole search *)

Section SearchFacts.
Import PyStr PyStrFacts NpFacts.

Variable products : list string.
Variable embedding : Type.
Variable encode : string -> embedding.
Variable index_search : embedding -> nat -> list (Q * Z).
Variable token_set_ratio : string -> string -> Z.
Variable argsort : list Q -> list nat.

Let search := search_products products embedding encode index_search
                              token_set_ratio argsort.
Let score := score_candidates products token_set_ratio.
Let hits := hits_of embedding encode index_search.

Lemma result_at_inv (indices : list Z) (fs : list Q) (i : nat)
    (name : string) (x : Q) :
  result_at products indices fs i = Some (name, x) ->
  exists label, nth_error indices i = Some label /\
    getitem products label = Some name /\ nth_error fs i = Some x.
Proof.
  unfold result_at. intros H. inv_bind H. inv_bind H. inv_bind H.
  injection H as <- <-. eauto.
Qed.

Lemma search_products_inv (query : string) (top_k : nat) (r : list (string * Q)) :
  search query top_k = Some r ->
  exists s idxs,
    score (preprocess_query query) (hits query top_k) = Some s /\
    select argsort (final_scores s) top_k = Some idxs /\
    Forall2 (fun i out =>
               result_at products (map snd (hits query top_k))
                         (final_scores s) i = Some out) idxs r.
Proof.
  unfold search, search_products, faiss_search. intros H.
  destruct (top_k * 3 =? 0); [discriminate|]. simpl in H.
  inv_bind H. inv_bind H.
  exists v, v0. repeat split; try assumption. now apply mapM_Forall2.
Qed.

(** FAISS refuses a request for no neighbour: [top_k = 0] raises. *)
Lemma search_products_zero (query : string) : search query 0 = None.
Proof. reflexivity. Qed.

(** A returned pair is the name and the final score of one of the hits,
    and that score is above the threshold. *)
Lemma returned_is_candidate (query : string) (top_k : nat)
    (r : list (string * Q)) (name : string) (x : Q) :
  search query top_k = Some r -> In (name, x) r ->
  exists s i d label,
    score (preprocess_query query) (hits query top_k) = Some s /\
    nth_error (hits query top_k) i = Some (d, label) /\
    getitem products label = Some name /\
    nth_error (final_scores s) i = Some x /\
    (0.1 < x)%Q.
Proof.
  intros H Hin.
  destruct (search_products_inv _ _ _ H) as (s & idxs & Hs & Hsel & Hr).
  destruct (Forall2_In_r _ _ _ _ Hr Hin) as (i & Hi & Hat).
  apply result_at_inv in Hat as (label & Hlabel & Hname & Hx).
  apply select_above in Hsel as [_ Habove].
  rewrite Forall_forall in Habove.
  destruct (Habove i Hi) as (x' & Hx' & Hgt).
  rewrite Hx in Hx'. injection Hx' as <-.
  rewrite nth_error_map in Hlabel.
  destruct (nth_error (hits query top_k) i) as [[d label']|] eqn:E;
    [|discriminate].
  injection Hlabel as ->.
  exists s, i, d, label. repeat split; assumption.
Qed.

(** With valid labels and a sorter that meets its contract the search
    raises nothing, and its result is the selected positions read off
    the candidate arrays. *)
Lemma search_products_spec (query : string) (top_k : nat) :
  argsort_spec argsort ->
  1 <= top_k ->
  Forall (fun h => valid_index products (snd h)) (hits query top_k) ->
  exists s sorted r,
    score (preprocess_query query) (hits query top_k) = Some s /\
    Permutation sorted (Np.where_true (Np.gt (final_scores s) 0.1)) /\
    StronglySorted
      (fun i j => (nth j (final_scores s) 0 <= nth i (final_scores s) 0)%Q) sorted /\
    search query top_k = Some r /\
    Forall2 (fun i out =>
               result_at products (map snd (hits query top_k))
                         (final_scores s) i = Some out)
            (firstn top_k sorted) r.
Proof.
  intros Hsort Hk Hvalid.
  destruct (score_candidates_total products token_set_ratio
              (preprocess_query query) _ Hvalid) as (s & Hs).
  destruct (select_spec argsort Hsort (final_scores s) top_k)
    as (sorted & Hsel & Hperm & Hsorted & _).
  assert (Htotal : exists r,
    mapM (result_at products (map snd (hits query top_k)) (final_scores s))
         (firstn top_k sorted) = Some r).
  { apply mapM_total, Forall_forall. intros i Hi.
    apply In_firstn in Hi. apply (Permutation_in _ Hperm) in Hi.
    apply where_gt_In in Hi as (x & Hx & _).
    assert (Hlt : i < List.length (hits query top_k)).
    { rewrite <- (score_candidates_length _ _ _ _ _ Hs).
      apply nth_error_Some. congruence. }
    destruct (nth_error (hits query top_k) i) as [[d label]|] eqn:E;
      [|apply nth_error_None in E; lia].
    rewrite Forall_forall in Hvalid.
    destruct (getitem_Some products label
                (Hvalid _ (nth_error_In _ _ E))) as (name & Hname).
    exists (name, x). unfold result_at.
    rewrite nth_error_map, E. simpl. rewrite Hname. simpl. now rewrite Hx. }
  destruct Htotal as (r & Hr).
  exists s, sorted, r. repeat split; try assumption.
  - unfold search, search_products, faiss_search.
    destruct (top_k * 3 =? 0) eqn:E; [apply Nat.eqb_eq in E; lia|]. simpl.
    unfold score, hits, hits_of in Hs, Hr. rewrite Hs. simpl.
    rewrite Hsel. simpl. exact Hr.
  - now apply mapM_Forall2.
Qed.

End SearchFacts.

(** * The claims *)

Section Claims.
Import PyStr PyStrFacts NpFacts.

Variable products : list string.
Variable embedding : Type.
Variable encode : string -> embedding.
Variable index_search : embedding -> nat -> list (Q * Z).
Variable token_set_ratio : string -> string -> Z.
Variable argsort : list Q -> list nat.

Let search := search_products products embedding encode index_search
                              token_set_ratio argsort.
Let score := score_candidates products token_set_ratio.
Let hits := hits_of embedding encode index_search.

(** C1, as amended.  When the normalised query is empty (for one, when
    the raw query holds stop words only), every candidate's substring
    boost is 1.0 and every candidate's prefix boost is 1.0: the empty
    string occurs in, and starts, every name. *)
Theorem empty_query_boosts_are_one (query : string) (top_k : nat) (s : scores) :
  preprocess_query query = "" ->
  score (preprocess_query query) (hits query top_k) = Some s ->
  Forall (fun b => b = 1%Q) (substring_boost s) /\
  Forall (fun b => b = 1%Q) (startswith_boost s).
Proof.
  intros -> H. unfold score, score_candidates in H.
  inv_bind H. destruct v as [fz sb]. inv_bind H. injection H as <-. simpl.
  unfold get_fuzzy_scores in E. inv_bind E. inv_bind E. injection E as <- <-.
  unfold get_startswith_boost in E0.
  apply mapM_Forall2 in E2, E0. split.
  - apply Forall_forall. intros b Hb.
    destruct (Forall2_In_r _ _ _ _ E2 Hb) as (label & _ & Hlabel).
    inv_bind Hlabel. rewrite contains_empty in Hlabel. now injection Hlabel.
  - apply Forall_forall. intros b Hb.
    destruct (Forall2_In_r _ _ _ _ E0 Hb) as (label & _ & Hlabel).
    inv_bind Hlabel. rewrite startswith_empty in Hlabel. now injection Hlabel.
Qed.


Lemma fuzzy_of_bounds (q name : string) :
  (0 <= token_set_ratio q (lower name) <= 100)%Z ->
  (0 <= fuzzy_of token_set_ratio q name <= 1)%Q.
Proof.
  unfold fuzzy_of. generalize (token_set_ratio q (lower name)). intros t Ht.
  unfold Qle, Qdiv, Qmult, Qinv, inject_Z. simpl. lia.
Qed.

(** C3.  Every returned score is above 0.1; when the scorer stays
    within 0..100 and no distance is negative, it is at most 1; and the
    position of a candidate whose final score is 0.1 or less is never
    among the selected ones. *)
Theorem returned_scores_in_range (query : string) (top_k : nat)
    (r : list (string * Q)) (name : string) (x : Q) :
  search query top_k = Some r -> In (name, x) r ->
  (0.1 < x)%Q /\
  ((forall s1 s2, (0 <= token_set_ratio s1 s2 <= 100)%Z) ->
   Forall (fun h => (0 <= fst h)%Q) (hits query top_k) ->
   (x <= 1)%Q) /\
  (forall s idxs i y,
     score (preprocess_query query) (hits query top_k) = Some s ->
     select argsort (final_scores s) top_k = Some idxs ->
     nth_error (final_scores s) i = Some y -> (y <= 0.1)%Q ->
     ~ In i idxs).
Proof.
  intros H Hin.
  destruct (returned_is_candidate products embedding encode index_search
              token_set_ratio argsort _ _ _ _ _ H Hin)
    as (s & i & d & label & Hs & Hi & _ & Hx & Hgt).
  split; [exact Hgt|]. split.
  - intros Hratio Hdist.
    destruct (score_candidates_nth _ _ _ _ _ _ _ _ Hs Hi)
      as (name' & _ & _ & _ & _ & _ & Hfin).
    rewrite Hx in Hfin. injection Hfin as ->.
    rewrite Forall_forall in Hdist.
    pose proof (Hdist _ (nth_error_In _ _ Hi)) as Hd. simpl in Hd.
    pose proof (fuzzy_of_bounds (preprocess_query query) name'
                  (Hratio _ _)) as [_ Hfz].
    unfold startswith_of, substring_of.
    destruct (startswith _ _), (contains _ _); lra.
  - intros s' idxs j y _ Hsel Hy Hle Hj.
    apply select_above in Hsel as [_ Habove].
    rewrite Forall_forall in Habove.
    destruct (Habove j Hj) as (y' & Hy' & Hgt').
    rewrite Hy in Hy'. injection Hy' as <-.
    now apply (Qlt_not_le _ _ Hgt').
Qed.

(** C4.  The final score of the candidate at any position of the hit
    list is 0.4 ai_score + 0.4 fuzzy_score + 0.1 prefix_boost
    + 0.1 substring_boost, with ai_score = 1 - distance. *)
Theorem final_score_formula (query_clean : string) (candidates : list (Q * Z))
    (s : scores) (i : nat) (distance : Q) (label : Z) :
  score query_clean candidates = Some s ->
  nth_error candidates i = Some (distance, label) ->
  exists ai_score fuzzy_score prefix_b substring_b,
    nth_error (ai_scores s) i = Some ai_score /\
    ai_score = (1 - distance)%Q /\
    nth_error (fuzzy_scores s) i = Some fuzzy_score /\
    nth_error (startswith_boost s) i = Some prefix_b /\
    nth_error (substring_boost s) i = Some substring_b /\
    nth_error (final_scores s) i
    = Some (0.4 * ai_score + 0.4 * fuzzy_score
            + 0.1 * prefix_b + 0.1 * substring_b)%Q.
Proof.
  intros Hs Hi.
  destruct (score_candidates_nth _ _ _ _ _ _ _ _ Hs Hi)
    as (name & _ & Hai & Hfz & Hsw & Hsb & Hfin).
  exists (1 - distance)%Q, (fuzzy_of token_set_ratio query_clean name),
         (startswith_of query_clean name), (substring_of query_clean name).
  repeat split; assumption.
Qed.

(** C5, as amended.  A candidate whose lowercased name is the
    normalised query has prefix boost 1.0 and substring boost 1.0.
    When the scorer rates the query against itself 100, its fuzzy score
    is 1.0 and its final score is 0.4 ai_score + 0.6; when moreover
    ai_score >= 0, it clears the threshold, and with a sorter that
    meets its contract and top_k >= 1 the search returns a non-empty
    sequence whose first score is at least this candidate's, and whose
    first pair is this candidate's whenever every other candidate
    scores strictly lower. *)
Theorem exact_match_scores (query : string) (top_k i : nat) (d : Q)
    (label : Z) (name : string) (s : scores) :
  score (preprocess_query query) (hits query top_k) = Some s ->
  nth_error (hits query top_k) i = Some (d, label) ->
  getitem products label = Some name ->
  lower name = preprocess_query query ->
  exists ai fz fin,
    nth_error (ai_scores s) i = Some ai /\ ai = (1 - d)%Q /\
    nth_error (fuzzy_scores s) i = Some fz /\
    nth_error (startswith_boost s) i = Some 1%Q /\
    nth_error (substring_boost s) i = Some 1%Q /\
    nth_error (final_scores s) i = Some fin /\
    (token_set_ratio (preprocess_query query) (preprocess_query query) = 100%Z ->
     (fz == 1)%Q /\
     (fin == 0.4 * ai + 0.6)%Q /\
     ((0 <= ai)%Q ->
      (0.1 < fin)%Q /\
      (argsort_spec argsort -> 1 <= top_k ->
       exists top x rest,
         search query top_k = Some ((top, x) :: rest) /\ (fin <= x)%Q /\
         ((forall j y, j <> i -> nth_error (final_scores s) j = Some y ->
                       (y < fin)%Q) ->
          top = name /\ x = fin)))).
Proof.
  intros Hs Hi Hname Hlow.
  destruct (score_candidates_nth _ _ _ _ _ _ _ _ Hs Hi)
    as (name' & Hname' & Hai & Hfz & Hsw & Hsb & Hfin).
  rewrite Hname in Hname'. injection Hname' as <-.
  unfold startswith_of, substring_of in *.
  rewrite Hlow in Hsw, Hsb, Hfin.
  rewrite startswith_refl in *. rewrite contains_refl in *.
  set (fz := fuzzy_of token_set_ratio (preprocess_query query) name) in *.
  set (fin := (0.4 * (1 - d) + 0.4 * fz + 0.1 * 1 + 0.1 * 1)%Q) in *.
  exists (1 - d)%Q, fz, fin.
  split; [assumption|]. split; [reflexivity|].
  repeat (split; [assumption|]).
  intros Hratio.
  assert (Hfz1 : (fz == 1)%Q)
    by (unfold fz, fuzzy_of; rewrite Hlow, Hratio; reflexivity).
  assert (Efin : (fin == 0.4 * (1 - d) + 0.6)%Q)
    by (unfold fin; rewrite Hfz1; ring).
  split; [exact Hfz1|]. split; [exact Efin|].
  intros Hge.
  assert (Hclear : (0.1 < fin)%Q) by lra.
  split; [exact Hclear|]. intros Hsort Hk.
  destruct (search_products_spec products embedding encode index_search
              token_set_ratio argsort query top_k Hsort Hk
              (score_candidates_valid _ _ _ _ _ Hs))
    as (s' & sorted & r & Hs' & Hperm & Hsorted & Hsearch & Hr).
  fold score hits in Hs'. rewrite Hs in Hs'. injection Hs' as <-.
  assert (Hin : In i sorted).
  { apply (Permutation_in _ (Permutation_sym Hperm)).
    apply where_gt_In. eauto. }
  destruct sorted as [|j sorted]; [contradiction|].
  destruct top_k as [|k]; [lia|]. simpl in Hr.
  inversion Hr as [|? [top x] ? rest Hj _]; subst.
  apply result_at_inv in Hj as (label' & Hlabel' & Htop & Hx).
  inversion Hsorted as [|? ? _ Hhead]; subst.
  assert (Hle : (fin <= x)%Q).
  { destruct Hin as [->|Hin].
    - rewrite Hfin in Hx. injection Hx as <-. apply Qle_refl.
    - rewrite Forall_forall in Hhead. specialize (Hhead i Hin).
      now rewrite (nth_error_nth _ _ _ Hfin), (nth_error_nth _ _ _ Hx) in Hhead. }
  exists top, x, rest. split; [assumption|]. split; [assumption|].
  intros Hbest.
  destruct (Nat.eq_dec j i) as [->|Hne].
  - rewrite nth_error_map in Hlabel'. fold hits in Hlabel'.
    rewrite Hi in Hlabel'. injection Hlabel' as <-. split; congruence.
  - specialize (Hbest j x Hne Hx). exfalso. now apply (Qlt_not_le x fin).
Qed.

(** C7, as amended.  The search never returns more than [top_k] pairs.
    For [top_k >= 1], with valid labels and a sorter that meets its
    contract, it raises nothing, and returns the empty sequence when no
    candidate's final score is above 0.1.  For [top_k = 0] the FAISS
    call raises. *)
Theorem result_count_bounded (query : string) (top_k : nat) :
  (forall r, search query top_k = Some r -> List.length r <= top_k) /\
  (argsort_spec argsort ->
   1 <= top_k ->
   Forall (fun h => valid_index products (snd h)) (hits query top_k) ->
   exists r, search query top_k = Some r /\ List.length r <= top_k /\
     (forall s, score (preprocess_query query) (hits query top_k) = Some s ->
                Forall (fun x => (x <= 0.1)%Q) (final_scores s) -> r = [])) /\
  (top_k = 0 -> search query top_k = None).
Proof.
  assert (Hbound : forall r, search query top_k = Some r -> List.length r <= top_k).
  { intros r H.
    destruct (search_products_inv products embedding encode index_search
                token_set_ratio argsort _ _ _ H) as (s & idxs & _ & Hsel & Hr).
    apply Forall2_length in Hr. apply select_above in Hsel as [Hlen _]. lia. }
  split; [exact Hbound|]. split; [|intros ->; reflexivity].
  intros Hsort Hk Hvalid.
  destruct (search_products_spec products embedding encode index_search
              token_set_ratio argsort query top_k Hsort Hk Hvalid)
    as (s & sorted & r & Hs & Hperm & _ & Hsearch & Hr).
  exists r. repeat split; [exact Hsearch | now apply Hbound |].
  intros s' Hs' Hlow. fold score hits in Hs. rewrite Hs in Hs'. injection Hs' as <-.
  destruct sorted as [|i sorted].
  - rewrite firstn_nil in Hr. now inversion Hr.
  - assert (Hin : In i (Np.where_true (Np.gt (final_scores s) 0.1)))
      by (apply (Permutation_in _ Hperm); now left).
    apply where_gt_In in Hin as (x & Hx & Hgt).
    rewrite Forall_forall in Hlow.
    specialize (Hlow x (nth_error_In _ _ Hx)).
    exfalso. now apply (Qlt_not_le _ _ Hgt).
Qed.

(** C10.  Every returned name is the catalog name of one of the hits
    the index returned for the request of 3 top_k neighbours, and so
    a name of the catalog; when the index returns no more hits than
    requested, that hit is among the first 3 top_k. *)
Theorem results_come_from_candidates (query : string) (top_k : nat)
    (r : list (string * Q)) (name : string) (x : Q) :
  search query top_k = Some r -> In (name, x) r ->
  In name products /\
  exists i d label,
    nth_error (index_search (encode (preprocess_query query)) (top_k * 3)) i
    = Some (d, label) /\
    getitem products label = Some name /\
    (List.length (index_search (encode (preprocess_query query)) (top_k * 3))
     <= top_k * 3 -> i < 3 * top_k).
Proof.
  intros H Hin.
  destruct (returned_is_candidate products embedding encode index_search
              token_set_ratio argsort _ _ _ _ _ H Hin)
    as (s & i & d & label & _ & Hi & Hname & _ & _).
  split; [now apply getitem_In in Hname|].
  exists i, d, label. repeat split; try assumption.
  intros Hlen.
  assert (i < List.length (hits_of embedding encode index_search query top_k))
    by (apply nth_error_Some; congruence).
  unfold hits_of in *. lia.
Qed.

End Claims.

(** A list sorted for an order that is antisymmetric on its elements
    has one sorted arrangement. *)
Lemma sorted_perm_unique {A : Type} (R : A -> A -> Prop) (l l' : list A) :
  StronglySorted R l -> StronglySorted R l' -> Permutation l l' ->
  (forall x y, In x l -> In y l -> R x y -> R y x -> x = y) ->
  l = l'.
Proof.
  revert l'. induction l as [|x l IH]; intros l' Hs Hs' Hp Hanti.
  - apply Permutation_nil in Hp. now subst.
  - destruct l' as [|y l'];
      [symmetry in Hp; apply Permutation_nil in Hp; discriminate|].
    inversion Hs as [|? ? Hsl Hx]; inversion Hs' as [|? ? Hsl' Hy]; subst.
    rewrite Forall_forall in Hx, Hy.
    assert (Hxy : x = y).
    { assert (H1 : In x (y :: l')) by (apply (Permutation_in _ Hp); now left).
      assert (H2 : In y (x :: l))
        by (apply (Permutation_in _ (Permutation_sym Hp)); now left).
      destruct H1 as [H1|H1]; [now symmetry|].
      destruct H2 as [H2|H2]; [now symmetry|].
      apply Hanti; [now left | now right | now apply Hx | now apply Hy]. }
    subst y. f_equal. apply IH; try assumption.
    + now apply Permutation_cons_inv in Hp.
    + intros u v Hu Hv. apply Hanti; now right.
Qed.

(** Two sorters that meet the contract of [np.argsort] select the same
    positions when no two scores above the threshold are equal. *)
Lemma select_sorter_independent (argsort argsort' : list Q -> list nat)
    (final_scores : list Q) (top_k : nat) :
  argsort_spec argsort -> argsort_spec argsort' ->
  (forall i j x y,
     nth_error final_scores i = Some x -> nth_error final_scores j = Some y ->
     (0.1 < x)%Q -> (x == y)%Q -> i = j) ->
  select argsort final_scores top_k = select argsort' final_scores top_k.
Proof.
  intros Hsort Hsort' Hdistinct.
  destruct (select_spec argsort Hsort final_scores top_k)
    as (sorted & -> & Hperm & Hsorted & _).
  destruct (select_spec argsort' Hsort' final_scores top_k)
    as (sorted' & -> & Hperm' & Hsorted' & _).
  f_equal. f_equal.
  apply (sorted_perm_unique _ _ _ Hsorted Hsorted').
  - now rewrite Hperm, Hperm'.
  - intros i j Hi Hj Hij Hji.
    apply (Permutation_in _ Hperm), NpFacts.where_gt_In in Hi as (x & Hx & Hgt).
    apply (Permutation_in _ Hperm), NpFacts.where_gt_In in Hj as (y & Hy & _).
    rewrite (nth_error_nth _ _ _ Hx), (nth_error_nth _ _ _ Hy) in Hij, Hji.
    apply (Hdistinct i j x y Hx Hy Hgt). now apply Qle_antisym.
Qed.

(** C8.  Two runs on the same catalog return the same sequence for the
    same query and the same top_k as soon as the encoders agree on the
    normalised query, the indexes on the request made, the scorers on
    the names of the catalog, and the sorters either answer alike or
    both meet the contract of [np.argsort] while no two scores above the
    threshold are equal: the result depends on the libraries through
    these answers alone, and on the sorter only through the order it
    gives to equal scores. *)
Theorem search_deterministic (products : list string) (embedding : Type)
    (encode encode' : string -> embedding)
    (index_search index_search' : embedding -> nat -> list (Q * Z))
    (token_set_ratio token_set_ratio' : string -> string -> Z)
    (argsort argsort' : list Q -> list nat)
    (query : string) (top_k : nat) :
  encode (preprocess_query query) = encode' (preprocess_query query) ->
  index_search (encode (preprocess_query query)) (top_k * 3)
  = index_search' (encode (preprocess_query query)) (top_k * 3) ->
  (forall name, In name products ->
     token_set_ratio (preprocess_query query) (PyStr.lower name)
     = token_set_ratio' (preprocess_query query) (PyStr.lower name)) ->
  ((forall a, argsort a = argsort' a) \/
   (argsort_spec argsort /\ argsort_spec argsort' /\
    forall s i j x y,
      score_candidates products token_set_ratio (preprocess_query query)
        (index_search (encode (preprocess_query query)) (top_k * 3)) = Some s ->
      nth_error (final_scores s) i = Some x ->
      nth_error (final_scores s) j = Some y ->
      (0.1 < x)%Q -> (x == y)%Q -> i = j)) ->
  search_products products embedding encode index_search token_set_ratio argsort
                  query top_k
  = search_products products embedding encode' index_search' token_set_ratio'
                    argsort' query top_k.
Proof.
  intros Henc Hidx Hratio Hsorters.
  unfold search_products, faiss_search. rewrite <- Henc, <- Hidx.
  destruct (top_k * 3 =? 0); [reflexivity|]. cbn [bind].
  set (hits := index_search (encode (preprocess_query query)) (top_k * 3)) in *.
  assert (Hscore : score_candidates products token_set_ratio
                     (preprocess_query query) hits
                   = score_candidates products token_set_ratio'
                       (preprocess_query query) hits).
  { unfold score_candidates, get_fuzzy_scores.
    rewrite (mapM_ext _ (fun i => p <- getitem products i ;;
               Some (inject_Z (token_set_ratio' (preprocess_query query)
                                                (PyStr.lower p)) / 100)%Q));
      [reflexivity|].
    intros label _. destruct (getitem products label) as [p|] eqn:E;
      simpl; [|reflexivity].
    now rewrite (Hratio p (getitem_In _ _ _ E)). }
  rewrite <- Hscore.
  destruct (score_candidates products token_set_ratio _ hits) as [s|] eqn:Hs;
    [simpl|reflexivity].
  assert (Hselect : select argsort (final_scores s) top_k
                    = select argsort' (final_scores s) top_k).
  { destruct Hsorters as [Hsame|(Hsort & Hsort' & Hdistinct)].
    - unfold select.
      destruct (Np.take (final_scores s) _) as [kept|]; [simpl|reflexivity].
      now rewrite Hsame.
    - apply select_sorter_independent; try assumption.
      intros i j x y. now apply Hdistinct. }
  now rewrite Hselect.
Qed.




(** * The claims on the worked catalog *)

Section Witnesses.
Import PyStr.

Lemma exact_ratio_range (s1 s2 : string) : (0 <= exact_ratio s1 s2 <= 100)%Z.
Proof. unfold exact_ratio. destruct (String.eqb s1 s2); lia. Qed.

(** The stop-word query "the" normalises to the empty string, and then
    every candidate carries both boosts, 1.0 and not 0.0. *)
Lemma empty_query_boosts_counterexample :
  preprocess_query "the" = "" /\
  exists s, Demo.score "the" 1 = Some s /\
    substring_boost s = [1; 1; 1]%Q /\
    startswith_boost s = [1; 1; 1]%Q /\
    ~ (1 == 0)%Q.
Proof.
  split; [reflexivity|]. eexists. split; [vm_compute; reflexivity|].
  repeat split. discriminate.
Qed.

Lemma empty_query_boosts_are_one_witness :
  exists s, Demo.score "the of" 1 = Some s /\
    Forall (fun b => b = 1%Q) (substring_boost s) /\
    Forall (fun b => b = 1%Q) (startswith_boost s).
Proof.
  eexists. split; [vm_compute; reflexivity|].
  apply (empty_query_boosts_are_one Demo.products string Demo.encode
           Demo.index_search exact_ratio "the of" 1);
    [reflexivity | vm_compute; reflexivity].
Defined.



Lemma returned_scores_in_range_witness :
  exists r x, Demo.search stable_argsort "coffee" 1 = Some r /\
    In ("coffee", x) r /\ (0.1 < x)%Q /\ (x <= 1)%Q.
Proof.
  assert (Hrun : exists r x,
            Demo.search stable_argsort "coffee" 1 = Some r /\ In ("coffee", x) r)
    by (eexists; eexists; split; [vm_compute; reflexivity | left; reflexivity]).
  destruct Hrun as (r & x & Hrun & Hin). exists r, x.
  split; [exact Hrun|]. split; [exact Hin|].
  destruct (returned_scores_in_range Demo.products string Demo.encode
              Demo.index_search exact_ratio stable_argsort "coffee" 1
              r "coffee" x Hrun Hin) as (Hlow & Hhigh & _).
  split; [exact Hlow|]. apply Hhigh; [exact exact_ratio_range|].
  vm_compute. repeat constructor; discriminate.
Defined.

Lemma final_score_formula_witness :
  exists s, Demo.score "coffee" 1 = Some s /\
    exists ai_score fuzzy_score prefix_b substring_b,
      nth_error (ai_scores s) 2 = Some ai_score /\
      ai_score = (1 - 0.5)%Q /\
      nth_error (fuzzy_scores s) 2 = Some fuzzy_score /\
      nth_error (startswith_boost s) 2 = Some prefix_b /\
      nth_error (substring_boost s) 2 = Some substring_b /\
      nth_error (final_scores s) 2
      = Some (0.4 * ai_score + 0.4 * fuzzy_score
              + 0.1 * prefix_b + 0.1 * substring_b)%Q.
Proof.
  eexists. split; [vm_compute; reflexivity|].
  apply (final_score_formula Demo.products exact_ratio "coffee"
           (firstn 3 Demo.near_hits) _ 2 0.5%Q 2%Z);
    [vm_compute; reflexivity | reflexivity].
Defined.

(** On the query "tea" the candidate "TEA" is an exact match with
    ai_score 1, yet the top result is "tea": with top_k = 1 it is not
    returned at all, with top_k = 2 it comes second. *)
Lemma exact_match_not_top_counterexample :
  exists s,
    Demo.score "tea" 1 = Some s /\
    nth_error (hits_of string Demo.encode Demo.index_search "tea" 1) 1
    = Some (0%Q, 1%Z) /\
    getitem Demo.products 1 = Some "TEA" /\
    lower "TEA" = preprocess_query "tea" /\
    nth_error (fuzzy_scores s) 1 = Some (inject_Z 100 / 100)%Q /\
    nth_error (startswith_boost s) 1 = Some 1%Q /\
    nth_error (substring_boost s) 1 = Some 1%Q /\
    nth_error (ai_scores s) 1 = Some (1 - 0)%Q /\ (0 <= 1 - 0)%Q /\
    option_map (map fst) (Demo.search stable_argsort "tea" 1) = Some ["tea"] /\
    option_map (map fst) (Demo.search stable_argsort "tea" 2)
    = Some ["tea"; "TEA"].
Proof.
  eexists. split; [vm_compute; reflexivity|].
  repeat split; try reflexivity. discriminate.
Qed.

Lemma exact_match_scores_witness :
  exists s, Demo.score "coffee" 1 = Some s /\
    exists fin rest,
      nth_error (final_scores s) 2 = Some fin /\
      (fin == 0.4 * (1 - 0.5) + 0.6)%Q /\ (0.1 < fin)%Q /\
      Demo.search stable_argsort "coffee" 1 = Some (("coffee", fin) :: rest).
Proof.
  eexists. split; [vm_compute; reflexivity|].
  match goal with
  | |- exists fin rest, nth_error (final_scores ?s) _ = _ /\ _ =>
      destruct (exact_match_scores Demo.products string Demo.encode
                  Demo.index_search exact_ratio stable_argsort
                  "coffee" 1 2 0.5%Q 2%Z "coffee" s)
        as (ai & fz & fin & _ & -> & _ & _ & _ & Hfin & Hexact);
        try reflexivity
  end.
  destruct (Hexact eq_refl) as (_ & Efin & Hrest).
  destruct Hrest as [Hclear Htop]; [discriminate|].
  destruct (Htop stable_argsort_spec (le_n 1)) as (top & x & rest & Hsearch & _ & Hfirst).
  destruct Hfirst as [-> ->].
  - intros j y Hj Hy. vm_compute in Hfin. injection Hfin as <-.
    destruct j as [|[|[|j]]]; vm_compute in Hy.
    + injection Hy as <-. reflexivity.
    + injection Hy as <-. reflexivity.
    + exfalso. now apply Hj.
    + destruct j; discriminate.
  - exists fin, rest. repeat split; assumption.
Defined.

(** With [top_k = 0] no candidate is above the threshold, yet the search
    does not return the empty sequence: the FAISS call raises. *)
Lemma top_k_zero_raises_counterexample :
  Demo.search stable_argsort "xyz" 0 = None /\
  Demo.search stable_argsort "xyz" 0 <> Some [].
Proof. split; [reflexivity | discriminate]. Qed.

Lemma result_count_bounded_witness :
  exists r, Demo.search stable_argsort "xyz" 1 = Some r /\
    List.length r <= 1 /\ r = [].
Proof.
  destruct (result_count_bounded Demo.products string Demo.encode
              Demo.index_search exact_ratio stable_argsort "xyz" 1)
    as (_ & Htotal & _).
  destruct (Htotal stable_argsort_spec (le_n 1)) as (r & Hr & Hlen & Hempty).
  - vm_compute. repeat constructor; discriminate.
  - exists r. split; [exact Hr|]. split; [exact Hlen|].
    eapply Hempty; [vm_compute; reflexivity|].
    vm_compute. repeat constructor; discriminate.
Defined.

Lemma search_deterministic_witness :
  Ties.search stable_argsort "green tea" 1
  = Ties.search network_argsort "green tea" 1.
Proof.
  unfold Ties.search.
  apply search_deterministic; try reflexivity.
  right. split; [apply stable_argsort_spec|].
  split; [apply network_argsort_spec|].
  intros s i j x y Hs Hx Hy _ Hxy.
  vm_compute in Hs. injection Hs as <-.
  destruct i as [|[|[|i]]]; destruct j as [|[|[|j]]];
    try reflexivity;
    vm_compute in Hx, Hy;
    try (destruct i; discriminate); try (destruct j; discriminate);
    injection Hx as <-; injection Hy as <-; vm_compute in Hxy; discriminate.
Defined.

Lemma results_come_from_candidates_witness :
  exists r x, Demo.search stable_argsort "tea" 2 = Some r /\
    In ("TEA", x) r /\
    In "TEA" Demo.products /\
    exists i d label,
      nth_error (Demo.index_search (Demo.encode (preprocess_query "tea")) (2 * 3)) i
      = Some (d, label) /\
      getitem Demo.products label = Some "TEA" /\
      i < 3 * 2.
Proof.
  assert (Hrun : exists r x,
            Demo.search stable_argsort "tea" 2 = Some r /\ In ("TEA", x) r)
    by (eexists; eexists; split; [vm_compute; reflexivity | right; left; reflexivity]).
  destruct Hrun as (r & x & Hrun & Hx). exists r, x.
  split; [exact Hrun|]. split; [exact Hx|].
  destruct (results_come_from_candidates Demo.products string Demo.encode
              Demo.index_search exact_ratio stable_argsort "tea" 2
              r "TEA" x Hrun Hx)
    as [Hin (i & d & label & Hi & Hname & Hlt)].
  split; [exact Hin|]. exists i, d, label.
  repeat split; try assumption. apply Hlt. apply Nat.leb_le. reflexivity.
Defined.

End Witnesses.

(** * Further properties of the code *)

(** ** Normalisation: empty results, length, composition *)

Section NormalisationMore.
Import PyStr PyStrFacts.

Lemma string_length_append (s1 s2 : string) :
  String.length (s1 ++ s2) = String.length s1 + String.length s2.
Proof. induction s1 as [|c s1 IH]; simpl; [reflexivity | now rewrite IH]. Qed.

Lemma join_cons (w : string) (ws : list string) :
  ws <> [] -> join " " (w :: ws) = (w ++ " " ++ join " " ws)%string.
Proof. destruct ws; [congruence | reflexivity]. Qed.

Lemma join_words_empty (ws : list string) :
  Forall is_word ws -> join " " ws = "" -> ws = [].
Proof.
  intros Hws Hjoin. destruct ws as [|w ws]; [reflexivity|].
  inversion Hws as [|? ? [Hne _] _]; subst.
  destruct ws as [|w' ws]; simpl in Hjoin; [congruence|].
  destruct w; [congruence | discriminate].
Qed.

Lemma filter_nil_inv {A : Type} (p : A -> bool) (l : list A) :
  filter p l = [] -> Forall (fun x => p x = false) l.
Proof.
  induction l as [|x l IH]; simpl; [constructor|].
  destruct (p x) eqn:E; [discriminate|]. intros H. constructor; auto.
Qed.

(** X1.  The normalised query is empty exactly when every word of the
    query is a stop word (in particular when it has no word at all). *)
Theorem preprocess_query_empty_iff (query : string) :
  preprocess_query query = "" <->
  Forall (fun w => In w stop_words) (split (lower query)).
Proof.
  split.
  - intros H. unfold preprocess_query in H.
    apply join_words_empty in H; [|apply (kept_words query)].
    apply filter_nil_inv in H. apply Forall_impl with (2 := H).
    intros w Hw. apply negb_false_iff in Hw. now apply is_stop_word_iff.
  - intros H. unfold preprocess_query. rewrite filter_none; [reflexivity|].
    apply Forall_impl with (2 := H). intros w Hw.
    apply negb_false_iff. now apply is_stop_word_iff.
Qed.

Lemma join_length_cons (w : string) (ws : list string) :
  String.length (join " " (w :: ws))
  = String.length w + match ws with [] => 0 | _ => S (String.length (join " " ws)) end.
Proof.
  destruct ws as [|w' ws]; [simpl; lia|].
  rewrite join_cons by discriminate.
  rewrite !string_length_append. reflexivity.
Qed.

Lemma join_length_app (l1 l2 : list string) :
  String.length (join " " (l1 ++ l2))
  <= String.length (join " " l1) + 1 + String.length (join " " l2).
Proof.
  induction l1 as [|w l1 IH]; [simpl; lia|].
  change ((w :: l1) ++ l2) with (w :: (l1 ++ l2)).
  rewrite !join_length_cons.
  destruct l1 as [|w' l1]; simpl app in *.
  - destruct l2; cbv iota; lia.
  - cbv iota in *. lia.
Qed.

Lemma join_length_filter (p : string -> bool) (ws : list string) :
  String.length (join " " (filter p ws)) <= String.length (join " " ws).
Proof.
  induction ws as [|w ws IH]; [reflexivity|].
  simpl filter. destruct (p w).
  - rewrite !join_length_cons.
    destruct (filter p ws) eqn:E; [lia|].
    destruct ws; [discriminate | lia].
  - rewrite join_length_cons. destruct ws; [simpl; lia | lia].
Qed.

Lemma flush_join_length (cur : string) :
  String.length (join " " (flush cur)) = String.length cur.
Proof. now destruct cur. Qed.

Lemma split_from_length (cur s : string) :
  String.length (join " " (split_from cur s))
  <= String.length cur + String.length s.
Proof.
  revert cur. induction s as [|c s IH]; intros cur; simpl.
  - rewrite flush_join_length. lia.
  - destruct (is_space c).
    + pose proof (join_length_app (flush cur) (split_from "" s)) as H.
      rewrite flush_join_length in H. specialize (IH ""). simpl in IH. lia.
    + specialize (IH (cur ++ String c "")%string).
      rewrite string_length_append in IH. simpl in IH. lia.
Qed.

(** X2.  The normalised query is never longer than the lowercased
    query it is cut from. *)
Theorem preprocess_query_length (query : string) :
  String.length (preprocess_query query) <= String.length (lower query).
Proof.
  unfold preprocess_query.
  pose proof (join_length_filter (fun word => negb (is_stop_word word))
                (split (lower query))) as H1.
  pose proof (split_from_length "" (lower query)) as H2.
  unfold split in *. simpl in H2. lia.
Qed.

Lemma split_from_sep (cur a b : string) (c : ascii) :
  is_space c = true ->
  split_from cur (a ++ String c b) = split_from cur a ++ split b.
Proof.
  intros Hc. revert cur. induction a as [|x a IH]; intros cur; simpl.
  - now rewrite Hc.
  - destruct (is_space x); [|apply IH].
    rewrite IH. now rewrite app_assoc.
Qed.

(** The kept words of a query. *)
Lemma kept_sep (a b : string) :
  filter (fun word => negb (is_stop_word word)) (split (lower (a ++ " " ++ b)))
  = filter (fun word => negb (is_stop_word word)) (split (lower a))
    ++ filter (fun word => negb (is_stop_word word)) (split (lower b)).
Proof.
  rewrite lower_append. simpl lower. change (lower_char " ") with " "%char.
  unfold split at 1. rewrite split_from_sep by reflexivity.
  apply filter_app.
Qed.

(** X3.  The normalised words of a query in two parts are those of the
    first part followed by those of the second. *)
Theorem preprocess_query_concat (a b : string) :
  split (preprocess_query (a ++ " " ++ b))
  = split (preprocess_query a) ++ split (preprocess_query b).
Proof.
  unfold preprocess_query.
  rewrite !split_join by apply kept_words.
  apply kept_sep.
Qed.

Lemma stop_word_kept (w : string) :
  In w stop_words ->
  filter (fun word => negb (is_stop_word word)) (split (lower w)) = [].
Proof.
  intros H. unfold stop_words in H. simpl in H.
  repeat (destruct H as [<-|H]; [reflexivity|]). contradiction.
Qed.

Lemma preprocess_query_stop_l (w q : string) :
  In w stop_words -> preprocess_query (w ++ " " ++ q) = preprocess_query q.
Proof.
  intros H. unfold preprocess_query. now rewrite kept_sep, stop_word_kept.
Qed.

Lemma preprocess_query_stop_r (w q : string) :
  In w stop_words -> preprocess_query (q ++ " " ++ w) = preprocess_query q.
Proof.
  intros H. unfold preprocess_query.
  now rewrite kept_sep, (stop_word_kept w H), app_nil_r.
Qed.

(** X4.  Normalisation ignores the case of the query, and its result is
    in lower case. *)
Theorem preprocess_query_case (query : string) :
  preprocess_query (lower query) = preprocess_query query /\
  lower (preprocess_query query) = preprocess_query query.
Proof.
  split.
  - unfold preprocess_query. now rewrite lower_idem.
  - destruct (kept_words query) as (_ & Hlower & _).
    unfold preprocess_query. rewrite lower_join.
    now rewrite (map_fixed lower _ Hlower).
Qed.

End NormalisationMore.

(** ** List and string facts used below *)

Lemma mapM_None {A B : Type} (f : A -> option B) (l : list A) :
  mapM f l = None <-> Exists (fun x => f x = None) l.
Proof.
  induction l as [|x l IH]; simpl.
  - split; [discriminate | intros H; inversion H].
  - destruct (f x) as [y|] eqn:E; simpl.
    + destruct (mapM f l) as [ys|]; simpl.
      * split; [discriminate|]. intros H.
        inversion H as [? ? Hx|? ? Hl]; subst; [congruence|].
        apply IH in Hl. discriminate.
      * split; [|reflexivity]. intros _. right. now apply IH.
    + split; [|reflexivity]. intros _. now left.
Qed.

Lemma getitem_None_iff {A : Type} (l : list A) (i : Z) :
  getitem l i = None <-> ~ valid_index l i.
Proof.
  split.
  - intros H Hvalid. destruct (getitem_Some l i Hvalid) as (x & Hx). congruence.
  - intros H. destruct (getitem l i) as [x|] eqn:E; [|reflexivity].
    exfalso. apply H. now apply getitem_valid in E.
Qed.

Lemma getitem_last {A : Type} (l : list A) (d : A) :
  l <> [] -> getitem l (-1) = Some (last l d).
Proof.
  intros Hne. unfold getitem. simpl (0 <=? -1)%Z. cbv iota.
  assert (Hlen : 0 < List.length l) by (destruct l; [congruence | simpl; lia]).
  destruct (- Z.of_nat (List.length l) <=? -1)%Z eqn:E;
    [|apply Z.leb_gt in E; lia].
  rewrite (app_removelast_last d Hne) at 2.
  rewrite nth_error_app2.
  - replace (Z.to_nat (Z.of_nat (List.length l) + -1) - List.length (removelast l))
      with 0; [reflexivity|].
    rewrite (app_removelast_last d Hne) at 1. rewrite length_app. simpl. lia.
  - rewrite (app_removelast_last d Hne) at 2. rewrite length_app. simpl. lia.
Qed.

Lemma prefix_iff (p s : string) :
  String.prefix p s = true <-> exists post, s = (p ++ post)%string.
Proof.
  revert s. induction p as [|c p IH]; intros s.
  - split; [intros _; now exists s | intros _; now destruct s].
  - destruct s as [|c' s]; simpl.
    + split; [discriminate | intros (post & H); discriminate].
    + destruct (ascii_dec c c') as [->|Hne].
      * rewrite IH. split; intros (post & H); exists post; [now rewrite H|].
        now injection H.
      * split; [discriminate|]. intros (post & H). injection H as H _. congruence.
Qed.

Lemma contains_iff (s sub : string) :
  PyStr.contains s sub = true <->
  exists pre post, s = (pre ++ sub ++ post)%string.
Proof.
  split.
  - induction s as [|c s IH]; intros H; cbn [PyStr.contains] in H.
    + rewrite orb_false_r in H. apply prefix_iff in H as (post & H).
      now exists "", post.
    + apply orb_true_iff in H as [H|H].
      * apply prefix_iff in H as (post & H). now exists "", post.
      * destruct (IH H) as (pre & post & ->). now exists (String c pre), post.
  - intros (pre & post & ->). induction pre as [|c pre IH].
    + assert (H : String.prefix sub (sub ++ post) = true)
        by (apply prefix_iff; now exists post).
      simpl append. destruct (sub ++ post)%string; cbn [PyStr.contains];
        now rewrite H.
    + simpl append. cbn [PyStr.contains]. rewrite IH. apply orb_true_r.
Qed.

Lemma startswith_contains (s p : string) :
  PyStr.startswith s p = true -> PyStr.contains s p = true.
Proof.
  unfold PyStr.startswith. intros H.
  destruct s; cbn [PyStr.contains]; now rewrite H.
Qed.

Lemma where_from_length (p : Q -> bool) (k : nat) (a : list Q) :
  List.length (Np.where_from k (map p a)) = List.length (filter p a).
Proof.
  revert k. induction a as [|x a IH]; intros k; simpl; [reflexivity|].
  destruct (p x); simpl; now rewrite IH.
Qed.

Lemma StronglySorted_app_inv {A : Type} (R : A -> A -> Prop) (l1 l2 : list A)
    (x y : A) :
  StronglySorted R (l1 ++ l2) -> In x l1 -> In y l2 -> R x y.
Proof.
  induction l1 as [|z l1 IH]; simpl; intros H Hx Hy; [contradiction|].
  inversion H as [|? ? Hs Hz]; subst. destruct Hx as [->|Hx].
  - rewrite Forall_forall in Hz. apply Hz, in_or_app. now right.
  - now apply IH.
Qed.

Lemma NoDup_firstn {A : Type} (n : nat) (l : list A) :
  NoDup l -> NoDup (firstn n l).
Proof.
  intros H. rewrite <- (firstn_skipn n l) in H.
  now apply NoDup_app_remove_r in H.
Qed.

(** ** Scoring, selection and the page *)

Section SearchMore.
Import PyStr PyStrFacts NpFacts.

Variable products : list string.
Variable embedding : Type.
Variable encode : string -> embedding.
Variable index_search : embedding -> nat -> list (Q * Z).
Variable token_set_ratio : string -> string -> Z.
Variable argsort : list Q -> list nat.

Let search := search_products products embedding encode index_search
                              token_set_ratio argsort.
Let score := score_candidates products token_set_ratio.
Let hits := hits_of embedding encode index_search.

Lemma comprehension_None (g : string -> Q) (indices : list Z) :
  mapM (fun i => p <- getitem products i ;; Some (g p)) indices = None <->
  Exists (fun i => ~ valid_index products i) indices.
Proof.
  rewrite mapM_None. split; intros H; apply Exists_exists in H as (i & Hi & H);
    apply Exists_exists; exists i; (split; [assumption|]).
  - apply getitem_None_iff. destruct (getitem products i); [discriminate | reflexivity].
  - apply getitem_None_iff in H. now rewrite H.
Qed.

(** X5.  [get_fuzzy_scores] raises exactly when one of the indices is
    outside [-len(products), len(products)); otherwise it returns one
    fuzzy score and one substring boost per index. *)
Theorem get_fuzzy_scores_raises (query_clean : string) (indices : list Z) :
  (get_fuzzy_scores products token_set_ratio query_clean indices = None <->
   Exists (fun i => ~ valid_index products i) indices) /\
  (forall fz sb,
     get_fuzzy_scores products token_set_ratio query_clean indices = Some (fz, sb) ->
     List.length fz = List.length indices /\ List.length sb = List.length indices).
Proof.
  split.
  - unfold get_fuzzy_scores.
    pose proof (comprehension_None
                  (fun p => inject_Z (token_set_ratio query_clean (lower p)) / 100)%Q
                  indices) as H1.
    pose proof (comprehension_None
                  (fun p => if contains (lower p) query_clean then 1 else 0)%Q
                  indices) as H2.
    cbv beta in H1, H2.
    destruct (mapM _ indices) as [fz|]; simpl.
    + destruct (mapM _ indices) as [sb|]; simpl.
      * split; [discriminate|]. intros H. apply H2 in H. discriminate.
      * split; [intros _; now apply H2 | reflexivity].
    + split; [intros _; now apply H1 | reflexivity].
  - intros fz sb H. unfold get_fuzzy_scores in H.
    inv_bind H. inv_bind H. injection H as <- <-.
    apply mapM_length in E, E0. now split.
Qed.

(** X6.  At every candidate the prefix boost is 1 only if the substring
    boost is 1: the pair of boosts is (0,0), (0,1) or (1,1). *)
Theorem prefix_boost_implies_substring_boost (query_clean : string)
    (candidates : list (Q * Z)) (s : scores) (i : nat) (d : Q) (label : Z) :
  score query_clean candidates = Some s ->
  nth_error candidates i = Some (d, label) ->
  (nth_error (startswith_boost s) i = Some 0%Q /\
   nth_error (substring_boost s) i = Some 0%Q) \/
  (nth_error (startswith_boost s) i = Some 0%Q /\
   nth_error (substring_boost s) i = Some 1%Q) \/
  (nth_error (startswith_boost s) i = Some 1%Q /\
   nth_error (substring_boost s) i = Some 1%Q).
Proof.
  intros Hs Hi.
  destruct (score_candidates_nth _ _ _ _ _ _ _ _ Hs Hi)
    as (name & _ & _ & _ & Hsw & Hsb & _).
  unfold startswith_of in Hsw. unfold substring_of in Hsb.
  destruct (startswith (lower name) query_clean) eqn:E.
  - apply startswith_contains in E. rewrite E in Hsb. auto.
  - destruct (contains (lower name) query_clean); auto.
Qed.

(** X7.  A candidate's substring boost is 1 exactly when the normalised
    query occurs in its lowercased name, and its prefix boost is 1
    exactly when the lowercased name begins with the query. *)
Theorem boosts_characterised (query_clean : string)
    (candidates : list (Q * Z)) (s : scores) (i : nat) (d : Q) (label : Z)
    (name : string) :
  score query_clean candidates = Some s ->
  nth_error candidates i = Some (d, label) ->
  getitem products label = Some name ->
  (nth_error (substring_boost s) i = Some 1%Q <->
   exists pre post, lower name = (pre ++ query_clean ++ post)%string) /\
  (nth_error (startswith_boost s) i = Some 1%Q <->
   exists post, lower name = (query_clean ++ post)%string).
Proof.
  intros Hs Hi Hname.
  destruct (score_candidates_nth _ _ _ _ _ _ _ _ Hs Hi)
    as (name' & Hname' & _ & _ & Hsw & Hsb & _).
  rewrite Hname in Hname'. injection Hname' as <-.
  rewrite Hsw, Hsb. unfold startswith_of, substring_of.
  rewrite <- contains_iff, <- prefix_iff. fold (startswith (lower name) query_clean).
  destruct (contains _ _), (startswith _ _); split; split;
    try reflexivity; try discriminate; intros H; discriminate.
Qed.

(** X8.  With a sorter that meets its contract, the search raises
    exactly when [top_k] is 0 (FAISS refuses the request) or the index
    returns a label outside [-len(products), len(products)). *)
Theorem search_raises_iff (query : string) (top_k : nat) :
  argsort_spec argsort ->
  (search query top_k = None <->
   top_k = 0 \/
   Exists (fun h => ~ valid_index products (snd h)) (hits query top_k)).
Proof.
  intros Hsort. split.
  - intros Hnone. destruct top_k as [|k]; [now left|]. right.
    assert (Hdec : forall h : Q * Z,
              {valid_index products (snd h)} + {~ valid_index products (snd h)}).
    { intros h. unfold valid_index.
      destruct (Z_le_dec (- Z.of_nat (List.length products)) (snd h));
        destruct (Z_lt_dec (snd h) (Z.of_nat (List.length products)));
        [left; lia | right; lia | right; lia | right; lia]. }
    destruct (Forall_Exists_dec _ Hdec (hits query (S k))) as [Hall|Hex];
      [|exact Hex].
    destruct (search_products_spec products embedding encode index_search
                token_set_ratio argsort query (S k) Hsort
                (le_n_S 0 k (Nat.le_0_l k)) Hall)
      as (_ & _ & r & _ & _ & _ & Hr & _).
    unfold search in Hnone. congruence.
  - intros [->|Hex]; [reflexivity|].
    destruct (search query top_k) as [r|] eqn:E; [|reflexivity].
    destruct (search_products_inv products embedding encode index_search
                token_set_ratio argsort _ _ _ E) as (s & _ & Hs & _).
    apply score_candidates_valid in Hs.
    apply Exists_exists in Hex as (h & Hh & Hbad).
    rewrite Forall_forall in Hs. exfalso. now apply Hbad, Hs.
Qed.

(** X9.  With a sorter that meets its contract, the number of results is
    the smaller of [top_k] and the number of candidates above 0.1. *)
Theorem result_count (query : string) (top_k : nat) (r : list (string * Q)) :
  argsort_spec argsort ->
  search query top_k = Some r ->
  exists s,
    score (preprocess_query query) (hits query top_k) = Some s /\
    List.length r
    = Nat.min top_k
        (List.length (filter (fun x => Np.gt_bool x 0.1) (final_scores s))).
Proof.
  intros Hsort H.
  destruct (search_products_inv products embedding encode index_search
              token_set_ratio argsort _ _ _ H) as (s & idxs & Hs & Hsel & Hr).
  destruct (select_spec argsort Hsort (final_scores s) top_k)
    as (sorted & Hsel' & Hperm & _).
  rewrite Hsel in Hsel'. injection Hsel' as ->.
  exists s. split; [exact Hs|].
  apply Forall2_length in Hr. rewrite <- Hr, length_firstn.
  rewrite (Permutation_length Hperm).
  unfold Np.where_true, Np.gt. now rewrite where_from_length.
Qed.

(** X10.  With a sorter that meets its contract, a candidate above the
    threshold is left out only when [top_k] candidates are selected and
    each of them scores at least as much. *)
Theorem select_keeps_best (final_scores : list Q) (top_k : nat)
    (idxs : list nat) (i : nat) (y : Q) :
  argsort_spec argsort ->
  select argsort final_scores top_k = Some idxs ->
  nth_error final_scores i = Some y -> (0.1 < y)%Q ->
  ~ In i idxs ->
  List.length idxs = top_k /\
  forall j x, In j idxs -> nth_error final_scores j = Some x -> (y <= x)%Q.
Proof.
  intros Hsort Hsel Hy Hgt Hout.
  destruct (select_spec argsort Hsort final_scores top_k)
    as (sorted & Hsel' & Hperm & Hsorted & _).
  rewrite Hsel in Hsel'. injection Hsel' as ->.
  assert (Hin : In i sorted).
  { apply (Permutation_in _ (Permutation_sym Hperm)). apply where_gt_In. eauto. }
  rewrite <- (firstn_skipn top_k sorted) in Hin, Hsorted.
  apply in_app_or in Hin as [Hin|Hin]; [contradiction|].
  split.
  - rewrite length_firstn. apply Nat.min_l.
    destruct (Nat.le_gt_cases top_k (List.length sorted)) as [Hle|Hlt]; [exact Hle|].
    rewrite skipn_all2 in Hin by lia. contradiction.
  - intros j x Hj Hx.
    pose proof (StronglySorted_app_inv _ _ _ j i Hsorted Hj Hin) as Hle.
    cbv beta in Hle.
    now rewrite (nth_error_nth _ _ _ Hy), (nth_error_nth _ _ _ Hx) in Hle.
Qed.

(** X11.  With a sorter that meets its contract, no candidate is
    selected twice. *)
Theorem select_no_repeat (final_scores : list Q) (top_k : nat) (idxs : list nat) :
  argsort_spec argsort ->
  select argsort final_scores top_k = Some idxs ->
  NoDup idxs.
Proof.
  intros Hsort Hsel.
  destruct (select_spec argsort Hsort final_scores top_k)
    as (sorted & Hsel' & Hperm & _).
  rewrite Hsel in Hsel'. injection Hsel' as ->.
  apply NoDup_firstn. apply (Permutation_NoDup (Permutation_sym Hperm)).
  unfold Np.where_true.
  generalize (where_from_ascending 0 (Np.gt final_scores 0.1)).
  generalize (Np.where_from 0 (Np.gt final_scores 0.1)).
  intros l Hl. induction Hl as [|x l _ IH Hx]; constructor; [|exact IH].
  intros Hin. rewrite Forall_forall in Hx. specialize (Hx x Hin). lia.
Qed.

Lemma fuzzy_of_le_1 (q name : string) :
  (token_set_ratio q (lower name) <= 100)%Z ->
  (fuzzy_of token_set_ratio q name <= 1)%Q.
Proof.
  unfold fuzzy_of. generalize (token_set_ratio q (lower name)). intros t Ht.
  unfold Qle, Qdiv, Qmult, Qinv, inject_Z. simpl. lia.
Qed.

Lemma fuzzy_of_ge_0 (q name : string) :
  (0 <= token_set_ratio q (lower name))%Z ->
  (0 <= fuzzy_of token_set_ratio q name)%Q.
Proof.
  unfold fuzzy_of. generalize (token_set_ratio q (lower name)). intros t Ht.
  unfold Qle, Qdiv, Qmult, Qinv, inject_Z. simpl. lia.
Qed.

(** X12.  While the scorer stays at or below 100, a candidate at
    distance 2.5 or more is never selected, whatever its name: in
    particular none of the padding hits that FAISS returns at the
    largest float. *)
Theorem far_candidate_never_selected (query_clean : string)
    (candidates : list (Q * Z)) (s : scores) (i : nat) (d : Q) (label : Z)
    (top_k : nat) (idxs : list nat) :
  (forall s1 s2, (token_set_ratio s1 s2 <= 100)%Z) ->
  score query_clean candidates = Some s ->
  nth_error candidates i = Some (d, label) ->
  (2.5 <= d)%Q ->
  select argsort (final_scores s) top_k = Some idxs ->
  ~ In i idxs.
Proof.
  intros Hratio Hs Hi Hd Hsel Hin.
  destruct (score_candidates_nth _ _ _ _ _ _ _ _ Hs Hi)
    as (name & _ & _ & _ & _ & _ & Hfin).
  apply select_above in Hsel as [_ Habove].
  rewrite Forall_forall in Habove.
  destruct (Habove i Hin) as (x & Hx & Hgt).
  rewrite Hfin in Hx. injection Hx as <-.
  pose proof (fuzzy_of_le_1 query_clean name (Hratio _ _)) as Hfz.
  unfold startswith_of, substring_of in Hgt.
  destruct (startswith _ _), (contains _ _); lra.
Qed.

(** X13.  While the scorer is never negative, a candidate nearer than
    0.75 is above the threshold whatever its name; with a sorter that
    meets its contract it is selected unless [top_k] candidates that
    score at least as much are. *)
Theorem near_candidate_selected (query_clean : string)
    (candidates : list (Q * Z)) (s : scores) (i : nat) (d : Q) (label : Z)
    (top_k : nat) (idxs : list nat) :
  (forall s1 s2, (0 <= token_set_ratio s1 s2)%Z) ->
  argsort_spec argsort ->
  score query_clean candidates = Some s ->
  nth_error candidates i = Some (d, label) ->
  (d < 0.75)%Q ->
  select argsort (final_scores s) top_k = Some idxs ->
  exists y,
    nth_error (final_scores s) i = Some y /\ (0.1 < y)%Q /\
    (In i idxs \/
     (List.length idxs = top_k /\
      forall j x, In j idxs -> nth_error (final_scores s) j = Some x ->
                  (y <= x)%Q)).
Proof.
  intros Hratio Hsort Hs Hi Hd Hsel.
  destruct (score_candidates_nth _ _ _ _ _ _ _ _ Hs Hi)
    as (name & _ & _ & _ & _ & _ & Hfin).
  pose proof (fuzzy_of_ge_0 query_clean name (Hratio _ _)) as Hfz.
  eexists. split; [exact Hfin|].
  assert (Hgt : (0.1 < 0.4 * (1 - d) + 0.4 * fuzzy_of token_set_ratio query_clean name
                       + 0.1 * startswith_of query_clean name
                       + 0.1 * substring_of query_clean name)%Q).
  { unfold startswith_of, substring_of.
    destruct (startswith _ _), (contains _ _); lra. }
  split; [exact Hgt|].
  destruct (in_dec Nat.eq_dec i idxs) as [Hin|Hout]; [now left|].
  right.
  destruct (select_spec argsort Hsort (final_scores s) top_k)
    as (sorted & Hsel' & Hperm & Hsorted & _).
  rewrite Hsel in Hsel'. injection Hsel' as ->.
  assert (Hin : In i sorted).
  { apply (Permutation_in _ (Permutation_sym Hperm)). apply where_gt_In. eauto. }
  rewrite <- (firstn_skipn top_k sorted) in Hin, Hsorted.
  apply in_app_or in Hin as [Hin|Hin]; [contradiction|].
  split.
  - rewrite length_firstn. apply Nat.min_l.
    destruct (Nat.le_gt_cases top_k (List.length sorted)) as [Hle|Hlt]; [exact Hle|].
    rewrite skipn_all2 in Hin by lia. contradiction.
  - intros j x Hj Hx.
    pose proof (StronglySorted_app_inv _ _ _ j i Hsorted Hj Hin) as Hle.
    cbv beta in Hle.
    now rewrite (nth_error_nth _ _ _ Hfin), (nth_error_nth _ _ _ Hx) in Hle.
Qed.


(** X15.  On a non-empty catalog a hit labelled -1 is scored and named
    as the last product. *)
Theorem label_minus_one_is_last_product (query_clean : string)
    (candidates : list (Q * Z)) (s : scores) (i : nat) (d : Q) :
  products <> [] ->
  score query_clean candidates = Some s ->
  nth_error candidates i = Some (d, (-1)%Z) ->
  nth_error (fuzzy_scores s) i
  = Some (fuzzy_of token_set_ratio query_clean (last products "")) /\
  nth_error (substring_boost s) i
  = Some (substring_of query_clean (last products "")) /\
  nth_error (startswith_boost s) i
  = Some (startswith_of query_clean (last products "")) /\
  forall name x,
    result_at products (map snd candidates) (final_scores s) i = Some (name, x) ->
    name = last products "".
Proof.
  intros Hne Hs Hi.
  destruct (score_candidates_nth _ _ _ _ _ _ _ _ Hs Hi)
    as (name & Hname & _ & Hfz & Hsw & Hsb & _).
  rewrite (getitem_last products "" Hne) in Hname. injection Hname as <-.
  repeat (split; [assumption|]).
  intros name x Hat. apply result_at_inv in Hat as (label & Hlabel & Hname & _).
  rewrite nth_error_map, Hi in Hlabel. injection Hlabel as <-.
  rewrite (getitem_last products "" Hne) in Hname. now injection Hname.
Qed.

(** X16.  The results do not change when a stop word is put before or
    after the query, nor when the query is lowercased. *)
Theorem search_ignores_stop_words_and_case (w query : string) (top_k : nat) :
  In w stop_words ->
  search (w ++ " " ++ query) top_k = search query top_k /\
  search (query ++ " " ++ w) top_k = search query top_k /\
  search (lower query) top_k = search query top_k.
Proof.
  intros Hw. unfold search, search_products.
  rewrite (preprocess_query_stop_l w query Hw),
          (preprocess_query_stop_r w query Hw).
  repeat split; try reflexivity.
  unfold preprocess_query at 1 2 3 4. now rewrite lower_idem.
Qed.

Lemma round_half_even_ge (x : Q) (k : Z) :
  (inject_Z k <= x)%Q -> (k <= round_half_even x)%Z.
Proof.
  intros H. apply Qfloor_resp_le in H. rewrite Qfloor_Z in H.
  unfold round_half_even.
  destruct (Qcompare _ _); [destruct (Z.even _)| |]; lia.
Qed.

Lemma format_2f_positive (x : Q) :
  (0 <= x)%Q ->
  format_2f x = hundredths_text (round_half_even (x * 100)).
Proof.
  intros H. unfold format_2f.
  assert (Hle : Qle_bool 0 x = true) by now apply Qle_bool_iff.
  rewrite Hle. simpl append.
  assert (Hn : (0 <= round_half_even (x * 100))%Z).
  { apply round_half_even_ge. change (inject_Z 0) with 0%Q. nra. }
  now rewrite Z.abs_eq.
Qed.

(** X17.  Whatever the page shows, it shows at most ten match lines
    (eleven widgets), each with the name of a catalog item and a printed
    percentage of at least 10.00; and on the empty query it shows the
    hint without searching. *)
Theorem page_shows (query : string) (ws : list widget) :
  page products embedding encode index_search token_set_ratio argsort query
  = Some ws ->
  List.length ws <= 11 /\
  (forall name percent, In (Match name percent) ws ->
     In name products /\
     exists n, (1000 <= n)%Z /\ percent = hundredths_text n) /\
  (query = "" -> ws = [Info "Enter a product name to start searching!"]).
Proof.
  unfold page. destruct query as [|c query].
  - intros H. injection H as <-. repeat split; simpl; try lia.
    + destruct H as [H|[]]. discriminate.
    + destruct H as [H|[]]. discriminate.
  - intros H. inv_bind H.
    assert (Hlen : List.length v <= 10).
    { destruct (search_products_inv products embedding encode index_search
                  token_set_ratio argsort _ _ _ E) as (s & idxs & _ & Hsel & Hr).
      apply Forall2_length in Hr. apply select_above in Hsel as [Hlen _]. lia. }
    destruct (List.length v =? 0); injection H as <-.
    + repeat split; simpl; try lia; try discriminate.
      * destruct H as [H|[]]. discriminate.
      * destruct H as [H|[]]. discriminate.
    + split; [simpl; rewrite length_map; lia|]. split; [|discriminate].
      intros name percent [H|H]; [discriminate|].
      apply in_map_iff in H as ([name' x] & Heq & Hin).
      injection Heq as -> <-.
      destruct (returned_is_candidate products embedding encode index_search
                  token_set_ratio argsort _ _ _ _ _ E Hin)
        as (s & i & d & label & _ & _ & Hname & _ & Hgt).
      split; [now apply getitem_In in Hname|].
      exists (round_half_even (x * 100 * 100)).
      split; [|apply format_2f_positive; lra].
      apply round_half_even_ge. change (inject_Z 1000) with 1000%Q. lra.
Qed.

End SearchMore.

(** ** The further properties on the worked catalog *)

Section WitnessesMore.
Import PyStr.

Lemma demo_score_tea_1 : exists s, Demo.score "tea" 1 = Some s.
Proof. eexists. vm_compute. reflexivity. Qed.

Lemma demo_score_tea_2 : exists s, Demo.score "tea" 2 = Some s.
Proof. eexists. vm_compute. reflexivity. Qed.

Lemma prefix_boost_implies_substring_boost_witness :
  exists s, Demo.score "tea" 1 = Some s /\
    ((nth_error (startswith_boost s) 2 = Some 0%Q /\
      nth_error (substring_boost s) 2 = Some 0%Q) \/
     (nth_error (startswith_boost s) 2 = Some 0%Q /\
      nth_error (substring_boost s) 2 = Some 1%Q) \/
     (nth_error (startswith_boost s) 2 = Some 1%Q /\
      nth_error (substring_boost s) 2 = Some 1%Q)).
Proof.
  destruct demo_score_tea_1 as (s & Hs). exists s. split; [exact Hs|].
  apply (prefix_boost_implies_substring_boost Demo.products exact_ratio
           (preprocess_query "tea") (firstn 3 Demo.near_hits) s 2 0.5%Q 2%Z);
    [exact Hs | reflexivity].
Defined.

Lemma boosts_characterised_witness :
  exists s, Demo.score "tea" 1 = Some s /\
    (nth_error (substring_boost s) 1 = Some 1%Q <->
     exists pre post, lower "TEA" = (pre ++ "tea" ++ post)%string) /\
    (nth_error (startswith_boost s) 1 = Some 1%Q <->
     exists post, lower "TEA" = ("tea" ++ post)%string).
Proof.
  destruct demo_score_tea_1 as (s & Hs). exists s. split; [exact Hs|].
  apply (boosts_characterised Demo.products exact_ratio
           (preprocess_query "tea") (firstn 3 Demo.near_hits) s 1 0%Q 1%Z "TEA");
    [exact Hs | reflexivity | reflexivity].
Defined.

Lemma search_raises_iff_witness :
  Demo.search stable_argsort "tea" 0 = None /\
  (Demo.search stable_argsort "tea" 1 = None <->
   1 = 0 \/
   Exists (fun h => ~ valid_index Demo.products (snd h))
          (hits_of string Demo.encode Demo.index_search "tea" 1)).
Proof.
  split.
  - apply (search_raises_iff Demo.products string Demo.encode Demo.index_search
             exact_ratio stable_argsort "tea" 0 stable_argsort_spec).
    now left.
  - apply (search_raises_iff Demo.products string Demo.encode Demo.index_search
             exact_ratio stable_argsort "tea" 1 stable_argsort_spec).
Defined.

Lemma result_count_witness :
  exists r s,
    Demo.search stable_argsort "tea" 1 = Some r /\
    Demo.score "tea" 1 = Some s /\
    List.length r
    = Nat.min 1 (List.length (filter (fun x => Np.gt_bool x 0.1) (final_scores s))).
Proof.
  assert (Hrun : exists r, Demo.search stable_argsort "tea" 1 = Some r)
    by (eexists; vm_compute; reflexivity).
  destruct Hrun as (r & Hrun).
  destruct (result_count Demo.products string Demo.encode Demo.index_search
              exact_ratio stable_argsort "tea" 1 r stable_argsort_spec Hrun)
    as (s & Hs & Hlen).
  exists r, s. repeat split; assumption.
Defined.

Lemma select_keeps_best_witness :
  List.length [0] = 1 /\
  forall j x, In j [0] -> nth_error [1; 1; 0.2]%Q j = Some x -> (1 <= x)%Q.
Proof.
  apply (select_keeps_best stable_argsort [1; 1; 0.2]%Q 1 [0] 1 1%Q
           stable_argsort_spec);
    [vm_compute; reflexivity | reflexivity | reflexivity |].
  intros [H|[]]. discriminate.
Defined.

Lemma select_no_repeat_witness : NoDup [0; 1; 2].
Proof.
  apply (select_no_repeat stable_argsort [1; 1; 0.2]%Q 3 [0; 1; 2]
           stable_argsort_spec).
  vm_compute. reflexivity.
Defined.

Lemma far_candidate_never_selected_witness :
  exists s idxs,
    Demo.score "tea" 2 = Some s /\
    select stable_argsort (final_scores s) 2 = Some idxs /\
    ~ In 3 idxs.
Proof.
  destruct demo_score_tea_2 as (s & Hs).
  assert (Hsel : exists idxs, select stable_argsort (final_scores s) 2 = Some idxs).
  { destruct (select_spec stable_argsort stable_argsort_spec (final_scores s) 2)
      as (sorted & H & _). eauto. }
  destruct Hsel as (idxs & Hsel). exists s, idxs.
  split; [exact Hs|]. split; [exact Hsel|].
  apply (far_candidate_never_selected Demo.products exact_ratio stable_argsort
           (preprocess_query "tea") (firstn 6 Demo.near_hits) s 3 Demo.far
           (-1)%Z 2 idxs);
    [intros; apply exact_ratio_range | exact Hs | reflexivity | discriminate
     | exact Hsel].
Defined.

Lemma near_candidate_selected_witness :
  exists s idxs y,
    Demo.score "tea" 1 = Some s /\
    select stable_argsort (final_scores s) 1 = Some idxs /\
    nth_error (final_scores s) 0 = Some y /\ (0.1 < y)%Q /\
    (In 0 idxs \/
     (List.length idxs = 1 /\
      forall j x, In j idxs -> nth_error (final_scores s) j = Some x ->
                  (y <= x)%Q)).
Proof.
  destruct demo_score_tea_1 as (s & Hs).
  assert (Hsel : exists idxs, select stable_argsort (final_scores s) 1 = Some idxs).
  { destruct (select_spec stable_argsort stable_argsort_spec (final_scores s) 1)
      as (sorted & H & _). eauto. }
  destruct Hsel as (idxs & Hsel).
  destruct (near_candidate_selected Demo.products exact_ratio stable_argsort
              (preprocess_query "tea") (firstn 3 Demo.near_hits) s 0 0%Q 0%Z
              1 idxs)
    as (y & Hy & Hgt & Hsel');
    [intros; apply exact_ratio_range | exact stable_argsort_spec | exact Hs
     | reflexivity | reflexivity | exact Hsel |].
  exists s, idxs, y. repeat split; assumption.
Defined.


Lemma label_minus_one_is_last_product_witness :
  exists s, Demo.score "tea" 2 = Some s /\
    nth_error (fuzzy_scores s) 3
    = Some (fuzzy_of exact_ratio (preprocess_query "tea") "coffee").
Proof.
  destruct demo_score_tea_2 as (s & Hs). exists s. split; [exact Hs|].
  apply (label_minus_one_is_last_product Demo.products exact_ratio
           (preprocess_query "tea") (firstn 6 Demo.near_hits) s 3 Demo.far);
    [discriminate | exact Hs | reflexivity].
Defined.

Lemma search_ignores_stop_words_and_case_witness :
  Demo.search stable_argsort ("the" ++ " " ++ "Green Tea") 2
  = Demo.search stable_argsort "Green Tea" 2 /\
  Demo.search stable_argsort ("Green Tea" ++ " " ++ "the") 2
  = Demo.search stable_argsort "Green Tea" 2 /\
  Demo.search stable_argsort (lower "Green Tea") 2
  = Demo.search stable_argsort "Green Tea" 2.
Proof.
  apply (search_ignores_stop_words_and_case Demo.products string Demo.encode
           Demo.index_search exact_ratio stable_argsort "the" "Green Tea" 2).
  left. reflexivity.
Defined.

Lemma page_shows_witness :
  exists ws,
    page Demo.products string Demo.encode Demo.index_search exact_ratio
         stable_argsort "tea" = Some ws /\
    List.length ws <= 11 /\
    (forall name percent, In (Match name percent) ws ->
       In name Demo.products /\
       exists n, (1000 <= n)%Z /\ percent = hundredths_text n).
Proof.
  assert (Hrun : exists ws,
            page Demo.products string Demo.encode Demo.index_search exact_ratio
                 stable_argsort "tea" = Some ws)
    by (eexists; vm_compute; reflexivity).
  destruct Hrun as (ws & Hrun). exists ws. split; [exact Hrun|].
  destruct (page_shows Demo.products string Demo.encode Demo.index_search
              exact_ratio stable_argsort "tea" ws Hrun) as (Hlen & Hmatch & _).
  split; assumption.
Defined.

End WitnessesMore.
